(** * Matrix: verification of [src/matrix.cpp]

    A shallow embedding of the [Matrix<val_t>] class template and the proofs
    of its specified behaviour.

    Modelling conventions.
    - [val_t] is the template parameter.  The operations the template body
      uses on it form the interface [ValT]; [Z] and [Q] are the two exact
      instances the examples run on, [c_int], [c_unsigned] and the primitive
      binary64 numbers are the machine types [int], [unsigned] and [double].
    - [dim_t] is [unsigned] (32 bits), embedded in [N].  The only place a
      wider value is narrowed to [dim_t] is the vector constructor
      ([src.size()] is a [size_t]); the wrap-around is written out there.
    - A [Matrix] object lives at a location of the object store.  Its row
      storage is owned by the object exclusively (every constructor
      allocates fresh rows and nothing ever hands [_data] out), so the rows
      are embedded in the record.  A cell is [None] while it holds the
      indeterminate value [new val_t[w]] leaves behind.
    - Every member function is a computation in the monad [M]: it threads the
      global state (object store, the generator behind [std::rand],
      standard output) and finishes normally, by a thrown exception, or in
      undefined behaviour.  Allocation is assumed to succeed. *)

From Stdlib Require Import ZArith NArith QArith String Ascii List Lia.
From Stdlib Require PrimFloat Uint63.
From stdpp Require Import base option list gmap pretty.

Local Open Scope N_scope.

(** ** The element type *)

(** What the template body asks of [val_t]: conversion from an [int] value
    ([= 0], [(val_t)std::rand()], the promoted literals) and the four
    arithmetic operators. *)
Class ValT (val_t : Type) := {
  of_int : Z → val_t;
  vadd : val_t → val_t → val_t;
  vsub : val_t → val_t → val_t;
  vmul : val_t → val_t → val_t;
  vdiv : val_t → val_t → val_t
}.

(** The comparison [<=] of the element type. *)
Class ValLe (val_t : Type) := {
  vle : val_t → val_t → Prop
}.

(** An element type on which the arithmetic of the randomized fill is
    monotone.  The laws are asked at the values that fill computes and nowhere
    else: an [int] between [0] and a positive [int] bound, converted and
    divided by the converted bound; a quotient between [0] and [1], doubled; a
    value between [0] and [2], less one.  [int] meets them and so do the
    exact [Z] and [Q]; an unsigned type does not ([vsub_mono] fails at
    [0 <= 2], [0u - 1] being the largest value of the type).  They are laws
    that monotone rounding keeps, but no floating type is proved an instance:
    for [double] the range is checked value by value instead. *)
Class ValOrder (val_t : Type) `{ValT val_t} `{ValLe val_t} := {
  vle_trans : ∀ x y z, vle x y → vle y z → vle x z;
  of_int_mono : ∀ a b,
    (0 ≤ a)%Z → (a ≤ b)%Z → (b ≤ 2147483647)%Z → vle (of_int a) (of_int b);
  vdiv_mono : ∀ a b k,
    (0 ≤ a)%Z → (a ≤ b)%Z → (b ≤ k)%Z → (1 ≤ k)%Z → (k ≤ 2147483647)%Z →
    vle (vdiv (of_int a) (of_int k)) (vdiv (of_int b) (of_int k));
  vdiv_zero : ∀ k,
    (1 ≤ k)%Z → (k ≤ 2147483647)%Z → vle (of_int 0) (vdiv (of_int 0) (of_int k));
  vdiv_self : ∀ k,
    (1 ≤ k)%Z → (k ≤ 2147483647)%Z → vle (vdiv (of_int k) (of_int k)) (of_int 1);
  vmul_mono : ∀ x y,
    vle (of_int 0) x → vle x y → vle y (of_int 1) →
    vle (vmul x (of_int 2)) (vmul y (of_int 2));
  vmul_zero : vle (of_int 0) (vmul (of_int 0) (of_int 2));
  vmul_one : vle (vmul (of_int 1) (of_int 2)) (of_int 2);
  vsub_mono : ∀ x y,
    vle (of_int 0) x → vle x y → vle y (of_int 2) →
    vle (vsub x (of_int 1)) (vsub y (of_int 1));
  vsub_zero : vle (of_int (-1)) (vsub (of_int 0) (of_int 1));
  vsub_two : vle (vsub (of_int 2) (of_int 1)) (of_int 1)
}.

(** The [%+1.Nf] conversion of [printf], for the element types that may be
    passed to it. *)
Class PrintfF (val_t : Type) := {
  printf_plus_f : N → val_t → string
}.

(** ** The generator behind [std::srand] and [std::rand] *)

Class CRand := {
  rand_state : Type;
  RAND_MAX : Z;
  c_srand : Z → rand_state;
  c_rand : rand_state → Z * rand_state
}.

(** The C standard's contract for [rand]: [RAND_MAX] is an [int] constant
    of at least 32767, and [rand] returns a value between [0] and
    [RAND_MAX]. *)
Class CRandSpec `{CRand} := {
  RAND_MAX_min : (32767 ≤ RAND_MAX)%Z;
  RAND_MAX_int : (RAND_MAX ≤ 2147483647)%Z;
  c_rand_range : ∀ g, (0 ≤ (c_rand g).1 ≤ RAND_MAX)%Z
}.

(** ** Outcomes *)

Inductive exn := domain_error (what : string).

Inductive ub := OutOfBounds | Uninitialized | DanglingReference | SignedOverflow.

Inductive result (S A : Type) :=
  | Ok (a : A) (σ : S)
  | Throw (e : exn) (σ : S)
  | Undef (u : ub).
Arguments Ok {S A} a σ.
Arguments Throw {S A} e σ.
Arguments Undef {S A} u.

Definition loc := positive.

(** [unsigned] is 32 bits wide. *)
Definition dim_t := N.
Definition INT_MAX : N := 2147483647.
(** Conversion of a [size_t] to [dim_t]. *)
Definition to_dim_t (n : N) : dim_t := n mod 4294967296.

Section Model.
Context {val_t : Type} {VT : ValT val_t} {CR : CRand}.

(** ** The class *)

Record Matrix := mkMatrix {
  _data : list (list (option val_t));
  _height : dim_t;
  _width : dim_t;
  _id : option Z
}.

Record state := mkState {
  heap : gmap loc Matrix;
  rng : rand_state;
  out : string
}.

Definition M (A : Type) : Type := state → result state A.

Definition ret {A} (a : A) : M A := λ σ, Ok a σ.
Definition bind {A B} (m : M A) (k : A → M B) : M B :=
  λ σ, match m σ with
       | Ok a σ' => k a σ'
       | Throw e σ' => Throw e σ'
       | Undef u => Undef u
       end.
Definition throw {A} (e : exn) : M A := λ σ, Throw e σ.
Definition undefined {A} (u : ub) : M A := λ _, Undef u.

(** Stack unwinding: when [m] throws, [cleanup] runs and the exception
    continues to propagate. *)
Definition unwinding {A} (m : M A) (cleanup : M unit) : M A :=
  λ σ, match m σ with
       | Throw e σ' =>
           match cleanup σ' with
           | Ok _ σ'' => Throw e σ''
           | Throw e' σ'' => Throw e' σ''
           | Undef u => Undef u
           end
       | r => r
       end.

#[global] Instance M_ret : MRet M := @ret.
#[global] Instance M_bind : MBind M := λ A B k m, bind m k.

(** ** Loops *)

(** [for (dim_t i = 0; i < bound; ++i) body], threading the local variables
    [a] the body updates.  Every bound in the source is a shape query on a
    matrix whose shape the body leaves alone, so it is read once; the
    counter stays below [bound] and never wraps. *)
Fixpoint for_range {A} (n : nat) (i : dim_t) (body : dim_t → A → M A) (a : A) : M A :=
  match n with
  | O => mret a
  | S n' => a' ← body i a; for_range n' (N.succ i) body a'
  end.

Definition for_dim {A} (bound : dim_t) (body : dim_t → A → M A) (a : A) : M A :=
  for_range (N.to_nat bound) 0 body a.

Definition for_dim_ (bound : dim_t) (body : dim_t → M unit) : M unit :=
  for_dim bound (λ i _, body i) tt.

(** [for (int i = 0; i < bound; ++i) body] with [bound] of type [dim_t]:
    the comparison converts [i] to [unsigned], and [++i] overflows the
    [int] once [i] has reached [INT_MAX] with the bound not yet met. *)
Definition for_int_ (bound : dim_t) (body : dim_t → M unit) : M unit :=
  if bound <=? INT_MAX then for_dim_ bound body
  else (for_dim_ (INT_MAX + 1) body;; undefined SignedOverflow).

(** ** The object store *)

Definition deref (l : loc) : M Matrix :=
  λ σ, match heap σ !! l with
       | Some m => Ok m σ
       | None => Undef DanglingReference
       end.

Definition assign (l : loc) (m : Matrix) : M unit :=
  λ σ, Ok tt (mkState (<[l := m]> (heap σ)) (rng σ) (out σ)).

(** A new object (a local variable or a return slot) at an unused location. *)
Definition new_object (m : Matrix) : M loc :=
  λ σ, let l := fresh (dom (heap σ)) in
       Ok l (mkState (<[l := m]> (heap σ)) (rng σ) (out σ)).

(** Destruction, rows released with the object. *)
Definition destroy (l : loc) : M unit :=
  λ σ, Ok tt (mkState (delete l (heap σ)) (rng σ) (out σ)).

(** [std::srand], [std::rand] and [printf] on the global state.  [srand]
    takes an [unsigned]: the [int] seed is converted on the way in. *)
Definition srand (seed : Z) : M unit :=
  λ σ, Ok tt (mkState (heap σ) (c_srand (seed mod 4294967296)%Z) (out σ)).

Definition rand : M Z :=
  λ σ, let '(r, g) := c_rand (rng σ) in Ok r (mkState (heap σ) g (out σ)).

Definition printf (s : string) : M unit :=
  λ σ, Ok tt (mkState (heap σ) (rng σ) (out σ +:+ s)).

(** ** Private and element-level members *)

(** [allocDims]: [h] rows of [w] elements; [new val_t[w]] does not
    initialize them. *)
Definition allocDims (h w : dim_t) : list (list (option val_t)) :=
  replicate (N.to_nat h) (replicate (N.to_nat w) None).

(** The lvalue [_data[y][x]] read and written. *)
Definition cell (m : Matrix) (y x : dim_t) : option (option val_t) :=
  row ← _data m !! N.to_nat y; row !! N.to_nat x.

Definition load (this : loc) (y x : dim_t) : M val_t :=
  m ← deref this;
  match cell m y x with
  | None => undefined OutOfBounds
  | Some None => undefined Uninitialized
  | Some (Some v) => mret v
  end.

Definition store (this : loc) (y x : dim_t) (v : val_t) : M unit :=
  m ← deref this;
  match _data m !! N.to_nat y with
  | None => undefined OutOfBounds
  | Some row =>
      if decide (N.to_nat x < length row)%nat then
        assign this (mkMatrix (<[N.to_nat y := <[N.to_nat x := Some v]> row]> (_data m))
                              (_height m) (_width m) (_id m))
      else undefined OutOfBounds
  end.

Definition width (this : loc) : M dim_t := m ← deref this; mret (_width m).
Definition w (this : loc) : M dim_t := width this.
Definition height (this : loc) : M dim_t := m ← deref this; mret (_height m).
Definition h (this : loc) : M dim_t := height this.

Definition get (this : loc) (y x : dim_t) : M val_t := load this y x.
Definition set (this : loc) (y x : dim_t) (dat : val_t) : M unit := store this y x dat.

(** ** Constructors *)

(** [Matrix()]: one row of one element, indeterminate, behind a shape of
    0 by 0; [_id] is the only use of [rand] outside the randomized fill. *)
Definition Matrix_default : M loc :=
  r ← rand;
  new_object (mkMatrix [[None]] 0 0 (Some r)).

(** [(val_t)std::rand() / RAND_MAX * 2 - 1] *)
Definition random_element (r : Z) : val_t :=
  vsub (vmul (vdiv (of_int r) (of_int RAND_MAX)) (of_int 2)) (of_int 1).

(** [Matrix(height, width, random = 0)].  A constructor returns the location
    of the object it has built. *)
Definition Matrix_shape (height width : dim_t) (random : Z) : M loc :=
  (if decide (random ≠ 0%Z) then srand random else mret tt);;
  this ← new_object (mkMatrix (allocDims height width) height width None);
  for_dim_ height (λ i,
    for_dim_ width (λ j,
      if decide (random ≠ 0%Z) then
        r ← rand; store this i j (random_element r)
      else store this i j (of_int 0)));;
  mret this.

(** [Matrix(const std::vector<std::vector<val_t>> &src)], delegating to
    [Matrix(src.size(), src[0].size())].  The delegate has completed when the
    body throws, so unwinding runs the destructor. *)
Definition Matrix_from_vector (src : list (list val_t)) : M loc :=
  match src !! 0%nat with
  | None => undefined OutOfBounds
  | Some src0 =>
      this ← Matrix_shape (to_dim_t (N.of_nat (length src)))
                          (to_dim_t (N.of_nat (length src0))) 0;
      unwinding
        (m ← deref this;
         for_dim_ (_height m) (λ i,
           match src !! N.to_nat i with
           | None => undefined OutOfBounds
           | Some row =>
               if decide (N.of_nat (length row) ≠ _width m) then
                 throw (domain_error "Non rectangular vector input!")
               else
                 for_dim_ (_width m) (λ j,
                   match row !! N.to_nat j with
                   | None => undefined OutOfBounds
                   | Some v => set this i j v
                   end)
           end))
        (destroy this);;
      mret this
  end.

(** [Matrix(const Matrix &src)] *)
Definition Matrix_copy (src : loc) : M loc :=
  sh ← height src;
  sw ← width src;
  this ← Matrix_shape sh sw 0;
  for_dim_ sh (λ i,
    for_dim_ sw (λ j, v ← get src i j; set this i j v));;
  mret this.

(** ** Static members *)

(** The local [ret] is built in the return slot. *)
Definition transpose (src : loc) : M loc :=
  sw ← w src;
  sh ← h src;
  ret_ ← Matrix_shape sw sh 0;
  for_dim_ sh (λ hi,
    for_dim_ sw (λ wi, v ← get src hi wi; set ret_ wi hi v));;
  mret ret_.

Definition dot (lhs rhs : loc) : M loc :=
  lw ← w lhs;
  rh ← h rhs;
  if decide (lw ≠ rh) then
    throw (domain_error "Invalid matrix dimensions for static dot multiplication!")
  else
    lh ← h lhs;
    rw ← w rhs;
    ret_ ← Matrix_shape lh rw 0;
    for_dim_ lh (λ r,
      for_dim_ rw (λ c,
        sum ← for_dim lw (λ i sum,
                 a ← get lhs r i;
                 b ← get rhs i c;
                 mret (vadd sum (vmul a b))) (of_int 0);
        set ret_ r c sum));;
    mret ret_.

(** ** Compound assignment *)

(** [w() != o.w() || h() != o.h()] *)
Definition shapes_differ (this o : loc) : M bool :=
  w1 ← w this;
  w2 ← w o;
  if decide (w1 ≠ w2) then mret true
  else (h1 ← h this; h2 ← h o; mret (bool_decide (h1 ≠ h2))).

(** Both operators return [Matrix<val_t>] by value: a copy of [*this]. *)
Definition operator_sub_assign (this o : loc) : M loc :=
  bad ← shapes_differ this o;
  if bad : bool then
    throw (domain_error "Invalid matrix dimesions for element-wise subtract!")
  else
    th ← h this;
    tw ← w this;
    for_dim_ th (λ i,
      for_dim_ tw (λ j,
        a ← get this i j; b ← get o i j; set this i j (vsub a b)));;
    Matrix_copy this.

Definition operator_mul_assign (this o : loc) : M loc :=
  bad ← shapes_differ this o;
  if bad : bool then
    throw (domain_error "Invalid matrix dimesions for element-wise multiply!")
  else
    th ← h this;
    tw ← w this;
    for_dim_ th (λ i,
      for_dim_ tw (λ j,
        a ← get this i j; b ← get o i j; set this i j (vmul a b)));;
    Matrix_copy this.

(** ** Printing *)

Definition newline : string := String (ascii_of_nat 10) EmptyString.

(** The format string is [" %+1.3f"] whatever [precision] is. *)
Definition print `{PrintfF val_t} (this : loc) (precision : N) : M unit :=
  th ← height this;
  tw ← width this;
  for_int_ th (λ i,
    for_int_ tw (λ j, v ← get this i j; printf (" " +:+ printf_plus_f 3 v));;
    printf newline);;
  printf newline.

End Model.

Arguments Matrix val_t : clear implicits.
Arguments state val_t {_}.

(** * The rest of the class *)

Section Lifecycle.
Context {val_t : Type} {VT : ValT val_t} {CR : CRand}.

(** [delete[] _data[i]]: the row is released, none of its elements can be
    reached any more. *)
Definition delete_row (this : loc) (i : dim_t) : M (val_t := val_t) unit :=
  m ← deref this;
  match _data m !! N.to_nat i with
  | None => undefined OutOfBounds
  | Some _ =>
      assign this (mkMatrix (<[N.to_nat i := []]> (_data m))
                            (_height m) (_width m) (_id m))
  end.

(** [~Matrix()], called on an object that stays where it is: the rows go,
    then the array of rows; the other members keep their values.  No
    constructor leaves [_data] null, so its test does not show here; neither
    does the difference between [new val_t *] and [new val_t *[1]]. *)
Definition Matrix_destructor (this : loc) : M (val_t := val_t) unit :=
  m ← deref this;
  for_dim_ (_height m) (λ i, delete_row this i);;
  m' ← deref this;
  assign this (mkMatrix [] (_height m') (_width m') (_id m')).

(** [operator=], returning [*this]. *)
Definition operator_assign (this o : loc) : M (val_t := val_t) loc :=
  if decide (this = o) then mret this
  else
    Matrix_destructor this;;
    oh ← h o;
    m ← deref this;
    assign this (mkMatrix (_data m) oh (_width m) (_id m));;
    ow ← w o;
    m ← deref this;
    assign this (mkMatrix (_data m) (_height m) ow (_id m));;
    oh ← h o;
    ow ← w o;
    m ← deref this;
    assign this (mkMatrix (allocDims oh ow) (_height m) (_width m) (_id m));;
    oh ← h o;
    ow ← w o;
    for_dim_ oh (λ i,
      for_dim_ ow (λ j, v ← get o i j; store this i j v));;
    mret this.

End Lifecycle.

(** * Specification vocabulary *)

Section Vocabulary.
Context {val_t : Type} {VT : ValT val_t} {CR : CRand}.
Implicit Types (σ : state val_t) (m : Matrix val_t) (l : loc).
Implicit Types (e : dim_t → dim_t → option val_t) (f : dim_t → dim_t → val_t).

(** [m] has shape [hh] by [ww] and its cell [(r, c)], for every position
    within the shape, holds [e r c] ([None]: not written yet). *)
Definition shaped m (hh ww : dim_t) e : Prop :=
  _height m = hh ∧ _width m = ww ∧
  ∀ r c, r < hh → c < ww → cell m r c = Some (e r c).

(** [m] is the [hh] by [ww] matrix with elements [f]: the logical matrix
    [M[r, c] = f r c] of the specification. *)
Definition holds m (hh ww : dim_t) f : Prop :=
  shaped m hh ww (λ r c, Some (f r c)).

(** The storage of [m] ends where its shape does, as [allocDims] lays it
    out (the default constructor's one-element block does not). *)
Definition exact_storage m : Prop :=
  ∀ r c, is_Some (cell m r c) → r < _height m ∧ c < _width m.

(** The state [σ] with the object at [l] replaced. *)
Definition with_obj σ l m : state val_t :=
  mkState (<[l := m]> (heap σ)) (rng σ) (out σ).

(** The state a program starts in: no objects, the generator as after
    [srand(1)], nothing printed. *)
Definition initial : state val_t := mkState ∅ (c_srand 1) "".

(** Cell [(r, c)] comes before iteration [(i, j)]. *)
Definition before (i j r c : dim_t) : bool := (r <? i) || ((r =? i) && (c <? j)).

(** The generator after [n] calls of [std::rand], and the value the call
    number [k] (from 0) returns. *)
Fixpoint rand_state_after (n : nat) (g : rand_state) : rand_state :=
  match n with
  | O => g
  | S n' => (c_rand (rand_state_after n' g)).2
  end.

Definition rand_nth (g : rand_state) (k : N) : Z :=
  (c_rand (rand_state_after (N.to_nat k) g)).1.

(** The sum of [t 0], ..., [t (n - 1)], accumulated from the left on the
    additive identity. *)
Definition lsum (n : nat) (t : dim_t → val_t) : val_t :=
  fold_left (λ acc k, vadd acc (t k)) (N.of_nat <$> seq 0 n) (of_int 0).

Definition dot_sum f g (n : dim_t) (r c : dim_t) : val_t :=
  lsum (N.to_nat n) (λ k, vmul (f r k) (g k c)).

(** The common body of [operator-=] and [operator*=]. *)
Definition compound_assign (op : val_t → val_t → val_t) (what : string)
    (this o : loc) : M loc :=
  bad ← shapes_differ this o;
  if bad : bool then throw (domain_error what)
  else
    th ← h this;
    tw ← w this;
    for_dim_ th (λ i,
      for_dim_ tw (λ j,
        a ← get this i j; b ← get o i j; set this i j (op a b)));;
    Matrix_copy this.

(** The element of the vector at [(r, c)], where there is one. *)
Definition vector_at (src : list (list val_t)) (r c : dim_t) : option val_t :=
  row ← src !! N.to_nat r; row !! N.to_nat c.

Definition vector_elem (src : list (list val_t)) (r c : dim_t) : val_t :=
  default (of_int 0) (vector_at src r c).


(** The text the specification asks [print] for: rows in order, one per
    line, the elements of a row with [precision] decimals and a single
    space between them, and an empty line at the end. *)
Definition print_spec `{PrintfF val_t} (rows : list (list val_t)) (precision : N)
    : string :=
  String.concat "" (map (λ row,
     String.concat " " (map (printf_plus_f precision) row) +:+ newline) rows)
  +:+ newline.

(** The pieces [g x] for the [x] of [l], one after the other. *)
Definition cat {A} (g : A → string) (l : list A) : string :=
  foldr (λ x acc, g x +:+ acc) "" l.

(** The indices [0], ..., [n - 1] of a loop over [n]. *)
Definition indices (n : dim_t) : list dim_t := N.of_nat <$> seq 0 (N.to_nat n).

(** The text [print] produces for the elements [f] of an [hh] by [ww]
    matrix. *)
Definition print_text `{PrintfF val_t} f (hh ww : dim_t) : string :=
  cat (λ r, cat (λ c, " " +:+ printf_plus_f 3 (f r c)) (indices ww) +:+ newline)
      (indices hh)
  +:+ newline.

(** The whole matrix read through [height], [width] and [get]. *)
Fixpoint collect {A} (n : nat) (i : dim_t) (read : dim_t → M (val_t:=val_t) A)
    : M (val_t:=val_t) (list A) :=
  match n with
  | O => mret []
  | S n' => x ← read i; xs ← collect n' (N.succ i) read; mret (x :: xs)
  end.

Definition elements (this : loc) : M (list (list val_t)) :=
  hh ← height this;
  ww ← width this;
  collect (N.to_nat hh) 0 (λ r, collect (N.to_nat ww) 0 (λ c, get this r c)).

(** What the specification says of the sequence constructor, read on the
    model: it throws exactly when some row is not as long as the first one,
    and otherwise builds the matrix of the sequence. *)
Definition from_rows_claim (src : list (list val_t)) σ : Prop :=
  let ww := length (default [] (src !! 0%nat)) in
  ((∃ x σ', Matrix_from_vector src σ = Throw x σ') ↔
   (∃ i row, src !! i = Some row ∧ length row ≠ ww)) ∧
  ((∀ i row, src !! i = Some row → length row = ww) →
   ∃ l σ', Matrix_from_vector src σ = Ok l σ' ∧
     height l σ' = Ok (N.of_nat (length src)) σ' ∧
     width l σ' = Ok (N.of_nat ww) σ' ∧
     ∀ i j row v, src !! i = Some row → row !! j = Some v →
       get l (N.of_nat i) (N.of_nat j) σ' = Ok v σ').

(** What the specification says of the randomized constructor, read on the
    model for an element type with a comparison: for a seed other than [0]
    every element lies between [-1] and [1], and a second construction with
    the same arguments gives the same elements. *)
Definition random_claim `{!ValLe val_t} (hh ww : dim_t) (s : Z) σ1 σ2 : Prop :=
  s ≠ 0%Z →
  ∃ l1 σ1' l2 σ2',
    Matrix_shape hh ww s σ1 = Ok l1 σ1' ∧
    Matrix_shape hh ww s σ2 = Ok l2 σ2' ∧
    ∀ r c, r < hh → c < ww →
      ∃ v, get l1 r c σ1' = Ok v σ1' ∧ get l2 r c σ2' = Ok v σ2' ∧
           vle (of_int (-1)) v ∧ vle v (of_int 1).

End Vocabulary.

(** The value a run returns, the exception it throws and the text it has
    printed. *)
Definition returned {S A} (r : result S A) : option A :=
  match r with
  | Ok a _ => Some a
  | _ => None
  end.

Definition thrown {S A} (r : result S A) : option exn :=
  match r with
  | Throw x _ => Some x
  | _ => None
  end.

Definition printed {val_t} `{CRand} {A} (r : result (state val_t) A) : option string :=
  match r with
  | Ok _ σ => Some (out σ)
  | _ => None
  end.

(** * Vocabulary for the further properties *)

Section MoreVocabulary.
Context {val_t : Type} {VT : ValT val_t} {CR : CRand}.

(** The storage of [m] is the block [allocDims] allocates for its shape:
    [_height m] rows of [_width m] elements. *)
Definition laid_out (m : Matrix val_t) : Prop :=
  length (_data m) = N.to_nat (_height m) ∧
  Forall (λ row, length row = N.to_nat (_width m)) (_data m).

(** The object at [l], if there is one, is laid out for its shape; so is
    every object of the store. *)
Definition obj_laid_out (l : loc) (σ : state val_t) : Prop :=
  ∀ m, heap σ !! l = Some m → laid_out m.

Definition all_laid_out (σ : state val_t) : Prop :=
  ∀ l, obj_laid_out l σ.

(** The computation [c] keeps [P], however it ends. *)
Definition preserves {A} (P : state val_t → Prop) (c : M A) : Prop :=
  ∀ σ, P σ →
    match c σ with
    | Ok _ σ' => P σ'
    | Throw _ σ' => P σ'
    | Undef _ => True
    end.

(** The computation [c] never ends in an exception. *)
Definition never_throws {A} (c : M (val_t := val_t) A) : Prop :=
  ∀ σ x τ, c σ ≠ Throw x τ.

(** The elements of the identity matrix. *)
Definition identity_elements (r c : dim_t) : val_t :=
  if r =? c then of_int 1 else of_int 0.

End MoreVocabulary.

(** An element type whose arithmetic is that of a commutative ring, exactly:
    the integers are, floating point is not. *)
Class ValRing (val_t : Type) `{ValT val_t} := {
  vadd_0_l : ∀ x, vadd (of_int 0) x = x;
  vadd_0_r : ∀ x, vadd x (of_int 0) = x;
  vadd_comm : ∀ x y, vadd x y = vadd y x;
  vadd_assoc : ∀ x y z, vadd x (vadd y z) = vadd (vadd x y) z;
  vmul_1_l : ∀ x, vmul (of_int 1) x = x;
  vmul_1_r : ∀ x, vmul x (of_int 1) = x;
  vmul_0_l : ∀ x, vmul (of_int 0) x = of_int 0;
  vmul_0_r : ∀ x, vmul x (of_int 0) = of_int 0;
  vmul_comm : ∀ x y, vmul x y = vmul y x;
  vmul_assoc : ∀ x y z, vmul x (vmul y z) = vmul (vmul x y) z;
  vmul_add_distr_l : ∀ x y z, vmul x (vadd y z) = vadd (vmul x y) (vmul x z);
  vmul_add_distr_r : ∀ x y z, vmul (vadd x y) z = vadd (vmul x z) (vmul y z)
}.


(** * Element types and a generator to run the model on *)

(** An exact integer element type, division truncating as in C. *)
#[export] Instance Z_ValT : ValT Z :=
  {| of_int z := z; vadd := Z.add; vsub := Z.sub; vmul := Z.mul; vdiv := Z.quot |}.

#[export] Instance Z_ValRing : ValRing Z :=
  {| vadd_0_l := Z.add_0_l;
     vadd_0_r := Z.add_0_r;
     vadd_comm := Z.add_comm;
     vadd_assoc := Z.add_assoc;
     vmul_1_l := Z.mul_1_l;
     vmul_1_r := Z.mul_1_r;
     vmul_0_l := Z.mul_0_l;
     vmul_0_r := Z.mul_0_r;
     vmul_comm := Z.mul_comm;
     vmul_assoc := Z.mul_assoc;
     vmul_add_distr_l := Z.mul_add_distr_l;
     vmul_add_distr_r := Z.mul_add_distr_r |}.

(** The rationals: floating point without the rounding. *)
#[export] Instance Q_ValT : ValT Q :=
  {| of_int := inject_Z; vadd := Qplus; vsub := Qminus; vmul := Qmult; vdiv := Qdiv |}.

#[export] Instance Z_ValLe : ValLe Z := {| vle := Z.le |}.
#[export] Instance Q_ValLe : ValLe Q := {| vle := Qle |}.

(** [int]: 32 bits, two's complement.  A result out of range is undefined in
    C++; the model wraps it as the hardware does, and so it does the quotient
    by [0].  Neither is reached on the values of the randomized fill. *)
Inductive c_int := Int (z : Z).

Definition int_value (x : c_int) : Z := let 'Int z := x in z.

Definition wrap_int (z : Z) : Z :=
  ((z + 2147483648) mod 4294967296 - 2147483648)%Z.

Definition int_op (op : Z → Z → Z) (x y : c_int) : c_int :=
  Int (wrap_int (op (int_value x) (int_value y))).

#[export] Instance int_ValT : ValT c_int :=
  {| of_int z := Int (wrap_int z);
     vadd := int_op Z.add; vsub := int_op Z.sub;
     vmul := int_op Z.mul; vdiv := int_op Z.quot |}.

#[export] Instance int_ValLe : ValLe c_int :=
  {| vle x y := (int_value x ≤ int_value y)%Z |}.

(** [unsigned]: 32 bits, arithmetic modulo [2^32]; an [int] converts to its
    residue, [-1] to [4294967295]. *)
Inductive c_unsigned := Unsigned (z : Z).

Definition unsigned_value (x : c_unsigned) : Z := let 'Unsigned z := x in z.

Definition wrap_unsigned (z : Z) : Z := (z mod 4294967296)%Z.

Definition unsigned_op (op : Z → Z → Z) (x y : c_unsigned) : c_unsigned :=
  Unsigned (wrap_unsigned (op (unsigned_value x) (unsigned_value y))).

#[export] Instance unsigned_ValT : ValT c_unsigned :=
  {| of_int z := Unsigned (wrap_unsigned z);
     vadd := unsigned_op Z.add; vsub := unsigned_op Z.sub;
     vmul := unsigned_op Z.mul; vdiv := unsigned_op Z.quot |}.

#[export] Instance unsigned_ValLe : ValLe c_unsigned :=
  {| vle x y := (unsigned_value x ≤ unsigned_value y)%Z |}.

(** [double]: IEEE binary64 with rounding to nearest, ties to even, the
    kernel's primitive floating-point numbers.  An [int] converts exactly. *)
Definition double_of_int (z : Z) : PrimFloat.float :=
  if (z <? 0)%Z then PrimFloat.opp (PrimFloat.of_uint63 (Uint63.of_Z (- z)))
  else PrimFloat.of_uint63 (Uint63.of_Z z).

#[export] Instance double_ValT : ValT PrimFloat.float :=
  {| of_int := double_of_int;
     vadd := PrimFloat.add; vsub := PrimFloat.sub;
     vmul := PrimFloat.mul; vdiv := PrimFloat.div |}.

#[export] Instance double_ValLe : ValLe PrimFloat.float :=
  {| vle x y := PrimFloat.leb x y = true |}.

(** [num / den] rounded to the nearest integer, ties to even. *)
Definition round_half_even (num den : Z) : Z :=
  let fl := (num / den)%Z in
  let rem := (num mod den)%Z in
  if (2 * rem <? den)%Z then fl
  else if (den <? 2 * rem)%Z then (fl + 1)%Z
  else if Z.even fl then fl else (fl + 1)%Z.

Fixpoint zeros (n : nat) : string :=
  match n with
  | O => ""
  | S n' => "0" +:+ zeros n'
  end.

(** [%+1.Nf] of a rational: sign, integer part and [p] decimals of the
    value rounded to [p] decimals. *)
Definition Q_printf_plus_f (p : N) (q : Q) : string :=
  let scale := (10 ^ Z.of_N p)%Z in
  let n := round_half_even (Z.abs (Qnum q) * scale) (Zpos (Qden q)) in
  let frac := pretty (Z.to_N (n mod scale)) in
  (if (Qnum q <? 0)%Z then "-" else "+")
  +:+ pretty (Z.to_N (n / scale))
  +:+ (if (p =? 0)%N then ""
       else "." +:+ zeros (N.to_nat p - String.length frac) +:+ frac).

#[export] Instance Q_PrintfF : PrintfF Q := {| printf_plus_f := Q_printf_plus_f |}.

(** The sample generator of the C standard (7.22.2.2). *)
#[export] Instance sample_rand : CRand :=
  {| rand_state := Z;
     RAND_MAX := 32767;
     c_srand seed := seed;
     c_rand next :=
       let next' := ((next * 1103515245 + 12345) mod 4294967296)%Z in
       (((next' / 65536) mod 32768)%Z, next') |}.

(** The [double] the randomized fill computes from the number [x] lies
    between [-1] and [1] ([RAND_MAX] is that of the sample generator), and
    the same for each of the [2 ^ d] numbers from [lo] on. *)
Definition double_within (x : Z) : bool :=
  let v : PrimFloat.float := random_element x in
  PrimFloat.leb (of_int (-1)) v && PrimFloat.leb v (of_int 1).

Fixpoint double_within_from (d : nat) (lo : Z) : bool :=
  match d with
  | O => double_within lo
  | S d' => double_within_from d' lo
            && double_within_from d' (lo + 2 ^ Z.of_nat d')%Z
  end.

(** ** Example objects *)

Definition example_row : Matrix Z := mkMatrix [[Some 5; Some 7]]%Z 1 2 None.
Definition example_row' : Matrix Z := mkMatrix [[Some 2; Some 3]]%Z 1 2 None.
Definition example_column : Matrix Z := mkMatrix [[Some 3]; [Some 4]]%Z 2 1 None.
Definition example_2x3 : Matrix Z :=
  mkMatrix [[Some 1; Some 2; Some 3]; [Some 4; Some 5; Some 6]]%Z 2 3 None.
Definition example_2x2 : Matrix Z :=
  mkMatrix [[Some 1; Some 2]; [Some 3; Some 4]]%Z 2 2 None.

(** A state holding [A] at location 1 and [B] at location 2. *)
Definition example_state (A B : Matrix Z) : state Z :=
  mkState {[1%positive := A; 2%positive := B]} (c_srand 1) "".

(** The elements of the example rows and of the example column. *)
Definition row_elements (x y : Z) (r c : dim_t) : Z := if c =? 0 then x else y.
Definition column_elements (x y : Z) (r c : dim_t) : Z := if r =? 0 then x else y.

(** More example objects: the 2 by 2 identity, a rational matrix, and a
    matrix of [2^31] empty rows. *)
Definition example_identity : Matrix Z :=
  mkMatrix [[Some 1; Some 0]; [Some 0; Some 1]]%Z 2 2 None.
Definition example_half : Matrix Q := mkMatrix [[Some (1 # 2)]] 1 1 None.
Definition example_tall : Matrix Q :=
  mkMatrix (allocDims 2147483648 0) 2147483648 0 None.

(** A state holding the rational matrix [A] at location 1. *)
Definition example_state_Q (A : Matrix Q) : state Q :=
  mkState {[1%positive := A]} (c_srand 1) "".

(** * Reasoning about the model *)

Section Proofs.
Context {val_t : Type} {VT : ValT val_t} {CR : CRand}.
Implicit Types (σ : state val_t) (m : Matrix val_t) (l : loc).
Implicit Types (e : dim_t → dim_t → option val_t) (f : dim_t → dim_t → val_t).

(** ** The monad *)

Lemma bind_ok {A B} (c : M A) (k : A → M B) σ a σ' :
  c σ = Ok a σ' → (c ≫= k) σ = k a σ'.
Proof. intros Hc. unfold mbind, M_bind, bind. by rewrite Hc. Qed.

Lemma bind_throw {A B} (c : M A) (k : A → M B) σ x σ' :
  c σ = Throw x σ' → (c ≫= k) σ = Throw x σ'.
Proof. intros Hc. unfold mbind, M_bind, bind. by rewrite Hc. Qed.

Lemma bind_undef {A B} (c : M A) (k : A → M B) σ u :
  c σ = Undef u → (c ≫= k) σ = Undef u.
Proof. intros Hc. unfold mbind, M_bind, bind. by rewrite Hc. Qed.

Lemma for_range_inv {A} (I : dim_t → A → state val_t → Prop) body n i a σ :
  I i a σ →
  (∀ j b τ, i ≤ j < i + N.of_nat n → I j b τ →
     ∃ b' τ', body j b τ = Ok b' τ' ∧ I (N.succ j) b' τ') →
  ∃ a' σ', for_range n i body a σ = Ok a' σ' ∧ I (i + N.of_nat n) a' σ'.
Proof.
  revert i a σ. induction n as [|n IH]; intros i a σ Hi Hstep.
  - exists a, σ. split; [done|]. by rewrite N.add_0_r.
  - destruct (Hstep i a σ) as (b & τ & Hb & Hτ); [lia|done|].
    destruct (IH (N.succ i) b τ Hτ) as (a' & σ' & Hrun & Hfin).
    { intros j c υ Hj. apply Hstep. lia. }
    exists a', σ'. split.
    + simpl. by rewrite (bind_ok _ _ _ _ _ Hb).
    + by replace (i + N.of_nat (S n)) with (N.succ i + N.of_nat n) by lia.
Qed.

Lemma for_dim_inv {A} (I : dim_t → A → state val_t → Prop) body bound a σ :
  I 0 a σ →
  (∀ j b τ, j < bound → I j b τ →
     ∃ b' τ', body j b τ = Ok b' τ' ∧ I (N.succ j) b' τ') →
  ∃ a' σ', for_dim bound body a σ = Ok a' σ' ∧ I bound a' σ'.
Proof.
  intros H0 Hstep.
  destruct (for_range_inv I body (N.to_nat bound) 0 a σ H0) as (a' & σ' & ? & ?).
  { intros j b τ Hj. apply Hstep. lia. }
  exists a', σ'. split; [done|]. by rewrite N2Nat.id, N.add_0_l in *.
Qed.

Lemma for_dim__inv (I : dim_t → state val_t → Prop) body bound σ :
  I 0 σ →
  (∀ j τ, j < bound → I j τ → ∃ τ', body j τ = Ok tt τ' ∧ I (N.succ j) τ') →
  ∃ σ', for_dim_ bound body σ = Ok tt σ' ∧ I bound σ'.
Proof.
  intros H0 Hstep.
  destruct (for_dim_inv (λ i _, I i) (λ i _, body i) bound tt σ H0) as ([] & σ' & ? & ?).
  { intros j [] τ Hj Hτ. destruct (Hstep j τ Hj Hτ) as (τ' & ? & ?). by exists tt, τ'. }
  by exists σ'.
Qed.

(** Two nested counting loops, the shape of every element-wise pass. *)
Lemma for_dim2_inv (I : dim_t → dim_t → state val_t → Prop) body hh ww σ :
  I 0 0 σ →
  (∀ i j τ, i < hh → j < ww → I i j τ →
     ∃ τ', body i j τ = Ok tt τ' ∧ I i (N.succ j) τ') →
  (∀ i τ, i < hh → I i ww τ → I (N.succ i) 0 τ) →
  ∃ σ', for_dim_ hh (λ i, for_dim_ ww (λ j, body i j)) σ = Ok tt σ' ∧ I hh 0 σ'.
Proof.
  intros H0 Hstep Hrow.
  apply (for_dim__inv (λ i, I i 0)); [done|].
  intros i τ Hi Hτ.
  destruct (for_dim__inv (I i) (body i) ww τ Hτ) as (τ' & ? & ?).
  { intros j υ Hj. by apply Hstep. }
  exists τ'. split; [done|]. by apply Hrow.
Qed.

(** ** Cells *)

Lemma cell_None_row m y x : _data m !! N.to_nat y = None → cell m y x = None.
Proof. intros Hy. unfold cell. by rewrite Hy. Qed.

Lemma cell_row m y x row :
  _data m !! N.to_nat y = Some row → cell m y x = row !! N.to_nat x.
Proof. intros Hy. unfold cell. by rewrite Hy. Qed.

Lemma cell_allocDims hh ww i r c :
  cell (mkMatrix (val_t:=val_t) (allocDims hh ww) hh ww i) r c
  = if (r <? hh) && (c <? ww) then Some None else None.
Proof.
  unfold cell, allocDims. simpl.
  destruct (N.ltb_spec r hh) as [Hr|Hr]; simpl.
  - rewrite lookup_replicate_2 by lia. simpl.
    destruct (N.ltb_spec c ww) as [Hc|Hc].
    + by rewrite lookup_replicate_2 by lia.
    + apply lookup_replicate_None. lia.
  - assert (replicate (N.to_nat hh) (replicate (N.to_nat ww) (@None val_t)) !! N.to_nat r = None) as -> by (apply lookup_replicate_None; lia). done.
Qed.

Lemma shaped_allocDims hh ww i :
  shaped (mkMatrix (val_t:=val_t) (allocDims hh ww) hh ww i) hh ww (λ _ _, None).
Proof.
  repeat split. intros r c Hr Hc. rewrite cell_allocDims.
  by rewrite (proj2 (N.ltb_lt _ _) Hr), (proj2 (N.ltb_lt _ _) Hc).
Qed.

Lemma exact_allocDims hh ww i :
  exact_storage (mkMatrix (val_t:=val_t) (allocDims hh ww) hh ww i).
Proof.
  intros r c. rewrite cell_allocDims. simpl.
  destruct (N.ltb_spec r hh), (N.ltb_spec c ww); simpl; try done;
    by intros [? [=]].
Qed.

Lemma shaped_ext m hh ww e e' :
  (∀ r c, r < hh → c < ww → e r c = e' r c) →
  shaped m hh ww e → shaped m hh ww e'.
Proof.
  intros He (Hh & Hw & Hc). repeat split; [done..|].
  intros r c Hr Hcw. rewrite Hc by done. by rewrite He.
Qed.

Lemma shaped_cell m hh ww e r c :
  shaped m hh ww e → r < hh → c < ww → cell m r c = Some (e r c).
Proof. intros (_ & _ & Hc). apply Hc. Qed.

(** ** Shape queries and element access *)

Lemma height_ok σ l m : heap σ !! l = Some m → height l σ = Ok (_height m) σ.
Proof. intros Hl. unfold height, deref, mbind, M_bind, bind. by rewrite Hl. Qed.

Lemma width_ok σ l m : heap σ !! l = Some m → width l σ = Ok (_width m) σ.
Proof. intros Hl. unfold width, deref, mbind, M_bind, bind. by rewrite Hl. Qed.

Lemma load_cell σ l m y x :
  heap σ !! l = Some m →
  load l y x σ = match cell m y x with
                 | None => Undef OutOfBounds
                 | Some None => Undef Uninitialized
                 | Some (Some v) => Ok v σ
                 end.
Proof.
  intros Hl. unfold load, deref, mbind, M_bind, bind. rewrite Hl.
  by destruct (cell m y x) as [[?|]|].
Qed.

Lemma get_ok σ l m y x v :
  heap σ !! l = Some m → cell m y x = Some (Some v) → get l y x σ = Ok v σ.
Proof. intros Hl Hc. unfold get. by rewrite (load_cell _ _ _ _ _ Hl), Hc. Qed.

Lemma store_out σ l m y x v :
  heap σ !! l = Some m → cell m y x = None → store l y x v σ = Undef OutOfBounds.
Proof.
  intros Hl Hc. unfold store, deref, mbind, M_bind, bind. rewrite Hl.
  unfold cell in Hc. destruct (_data m !! N.to_nat y) as [row|]; [|done].
  simpl in Hc. apply lookup_ge_None in Hc.
  destruct (decide _); [lia|done].
Qed.

Lemma store_in σ l m y x v :
  heap σ !! l = Some m → is_Some (cell m y x) →
  ∃ m', store l y x v σ = Ok tt (with_obj σ l m') ∧
        _height m' = _height m ∧ _width m' = _width m ∧ _id m' = _id m ∧
        ∀ r c, cell m' r c
               = if (r =? y) && (c =? x) then Some (Some v) else cell m r c.
Proof.
  intros Hl Hc. unfold store, deref, mbind, M_bind, bind. rewrite Hl.
  unfold cell in Hc. destruct (_data m !! N.to_nat y) as [row|] eqn:Hrow;
    [|by destruct Hc].
  simpl in Hc. apply lookup_lt_is_Some in Hc.
  destruct (decide _) as [_|]; [|lia].
  eexists. split; [reflexivity|]. repeat split.
  intros r c. unfold cell at 1. simpl.
  destruct (N.eqb_spec r y) as [->|Hr]; simpl.
  - rewrite list_lookup_insert_eq by (by eapply lookup_lt_Some). simpl.
    destruct (N.eqb_spec c x) as [->|Hx].
    + by rewrite list_lookup_insert_eq.
    + rewrite list_lookup_insert_ne by lia. by rewrite (cell_row _ _ _ _ Hrow).
  - rewrite list_lookup_insert_ne by lia. done.
Qed.

Lemma with_obj_lookup σ l m : heap (with_obj σ l m) !! l = Some m.
Proof. apply lookup_insert_eq. Qed.

Lemma with_obj_lookup_ne σ l l' m : l ≠ l' → heap (with_obj σ l m) !! l' = heap σ !! l'.
Proof. apply lookup_insert_ne. Qed.

Lemma with_obj_twice σ l m m' : with_obj (with_obj σ l m) l m' = with_obj σ l m'.
Proof. unfold with_obj. simpl. by rewrite insert_insert_eq. Qed.

(** Writing one cell of a [shaped] object. *)
Lemma set_shaped σ l m hh ww e y x v :
  heap σ !! l = Some m → shaped m hh ww e → y < hh → x < ww →
  ∃ m', set l y x v σ = Ok tt (with_obj σ l m') ∧ _id m' = _id m ∧
        shaped m' hh ww (λ r c, if (r =? y) && (c =? x) then Some v else e r c).
Proof.
  intros Hl Hm Hy Hx.
  destruct (store_in σ l m y x v Hl) as (m' & Hst & Hh & Hw & Hid & Hc).
  { rewrite (shaped_cell _ _ _ _ _ _ Hm Hy Hx). by eexists. }
  exists m'. split; [done|]. split; [done|].
  destruct Hm as (Hmh & Hmw & Hmc). repeat split; [congruence..|].
  intros r c Hr Hcw. rewrite Hc, Hmc by done.
  by destruct (N.eqb_spec r y), (N.eqb_spec c x).
Qed.

(** ** Row-major progress of an element-wise pass *)

Lemma before_start r c : before 0 0 r c = false.
Proof.
  unfold before. destruct (N.ltb_spec r 0); [lia|].
  destruct (N.ltb_spec c 0); [lia|]. by rewrite andb_false_r.
Qed.

Lemma before_step i j r c :
  before i (N.succ j) r c = (r =? i) && (c =? j) || before i j r c.
Proof.
  unfold before.
  destruct (N.ltb_spec r i), (N.eqb_spec r i), (N.ltb_spec c (N.succ j)),
    (N.eqb_spec c j), (N.ltb_spec c j); simpl; try done; lia.
Qed.

Lemma before_row i ww r c : c < ww → before i ww r c = before (N.succ i) 0 r c.
Proof.
  intros Hc. unfold before.
  destruct (N.ltb_spec r i), (N.eqb_spec r i), (N.ltb_spec c ww),
    (N.ltb_spec r (N.succ i)), (N.eqb_spec r (N.succ i)), (N.ltb_spec c 0);
    simpl; try done; lia.
Qed.

Lemma before_end hh r c : r < hh → before hh 0 r c = true.
Proof. intros Hr. unfold before. by rewrite (proj2 (N.ltb_lt _ _) Hr). Qed.

(** One iteration: the cell [(i, j)] of the object at [l] receives [f i j]. *)
Lemma set_step (hp : gmap loc (Matrix val_t)) g o l m hh ww e0 f i j :
  shaped m hh ww (λ r c, if before i j r c then Some (f r c) else e0 r c) →
  i < hh → j < ww →
  ∃ m', set l i j (f i j) (mkState (<[l := m]> hp) g o)
        = Ok tt (mkState (<[l := m']> hp) g o) ∧
        shaped m' hh ww
          (λ r c, if before i (N.succ j) r c then Some (f r c) else e0 r c).
Proof.
  intros Hm Hi Hj.
  destruct (set_shaped (mkState (<[l := m]> hp) g o) l m hh ww _ i j (f i j)
              (lookup_insert_eq _ _ _) Hm Hi Hj) as (m' & Hset & _ & Hm').
  exists m'. split.
  - rewrite Hset. unfold with_obj. simpl. by rewrite insert_insert_eq.
  - eapply shaped_ext; [|exact Hm']. intros r c _ _. simpl.
    rewrite before_step.
    destruct (N.eqb_spec r i) as [->|], (N.eqb_spec c j) as [->|]; done.
Qed.

Lemma shaped_next_row m hh ww e0 f i :
  shaped m hh ww (λ r c, if before i ww r c then Some (f r c) else e0 r c) →
  shaped m hh ww (λ r c, if before (N.succ i) 0 r c then Some (f r c) else e0 r c).
Proof. apply shaped_ext. intros r c _ Hc. by rewrite before_row. Qed.

Lemma shaped_done m hh ww e0 f :
  shaped m hh ww (λ r c, if before hh 0 r c then Some (f r c) else e0 r c) →
  holds m hh ww f.
Proof. apply shaped_ext. intros r c Hr _. by rewrite before_end. Qed.

Lemma shaped_start m hh ww e0 f :
  shaped m hh ww e0 →
  shaped m hh ww (λ r c, if before 0 0 r c then Some (f r c) else e0 r c).
Proof. apply shaped_ext. intros r c _ _. by rewrite before_start. Qed.

Lemma state_eta σ : mkState (heap σ) (rng σ) (out σ) = σ.
Proof. by destruct σ. Qed.

Lemma fresh_loc_None σ : heap σ !! fresh (dom (heap σ)) = None.
Proof. apply not_elem_of_dom, is_fresh. Qed.

(** ** The shape constructor without randomization *)

Lemma Matrix_shape_zero σ hh ww :
  ∃ m, Matrix_shape hh ww 0 σ
       = Ok (fresh (dom (heap σ))) (with_obj σ (fresh (dom (heap σ))) m) ∧
       holds m hh ww (λ _ _, of_int 0).
Proof.
  set (l := fresh (dom (heap σ))).
  destruct (for_dim2_inv
    (λ i j τ, ∃ m, τ = mkState (<[l := m]> (heap σ)) (rng σ) (out σ) ∧
       shaped m hh ww (λ r c, if before i j r c then Some (of_int 0) else None))
    (λ i j, store l i j (of_int 0)) hh ww
    (with_obj σ l (mkMatrix (allocDims hh ww) hh ww None)))
    as (σ' & Hrun & m & -> & Hm).
  - eexists. split; [reflexivity|].
    apply (shaped_start _ _ _ (λ _ _, None)), shaped_allocDims.
  - intros i j τ Hi Hj (m & -> & Hm).
    destruct (set_step (heap σ) (rng σ) (out σ) l m hh ww (λ _ _, None)
                (λ _ _, of_int 0) i j Hm Hi Hj) as (m' & Hset & Hm').
    eexists. split; [exact Hset|]. by exists m'.
  - intros i τ Hi (m & -> & Hm). exists m. split; [done|].
    by apply shaped_next_row.
  - exists m. split; [|by apply (shaped_done _ _ _ (λ _ _, None))].
    unfold Matrix_shape. destruct (decide (0%Z ≠ 0%Z)) as [?|_]; [done|].
    rewrite (bind_ok _ _ σ tt σ) by done.
    rewrite (bind_ok _ _ σ l (with_obj σ l (mkMatrix (allocDims hh ww) hh ww None)))
      by done.
    by rewrite (bind_ok _ _ _ _ _ Hrun).
Qed.

(** ** The shape constructor with randomization *)

Lemma rand_step (hp : gmap loc (Matrix val_t)) g o k :
  rand (mkState hp (rand_state_after (N.to_nat k) g) o)
  = Ok (rand_nth g k) (mkState hp (rand_state_after (N.to_nat (N.succ k)) g) o).
Proof.
  unfold rand, rand_nth. simpl. rewrite N2Nat.inj_succ. simpl.
  by destruct (c_rand _).
Qed.

Lemma Matrix_shape_random σ hh ww (random : Z) :
  random ≠ 0%Z →
  let l := fresh (dom (heap σ)) in
  let g := c_srand (random mod 4294967296)%Z in
  ∃ m, Matrix_shape hh ww random σ
       = Ok l (mkState (<[l := m]> (heap σ))
                       (rand_state_after (N.to_nat (hh * ww)) g) (out σ)) ∧
       holds m hh ww (λ r c, random_element (rand_nth g (r * ww + c))).
Proof.
  intros Hseed l g.
  set (f := λ r c, random_element (rand_nth g (r * ww + c))).
  destruct (for_dim2_inv
    (λ i j τ, ∃ m,
       τ = mkState (<[l := m]> (heap σ))
                   (rand_state_after (N.to_nat (i * ww + j)) g) (out σ) ∧
       shaped m hh ww (λ r c, if before i j r c then Some (f r c) else None))
    (λ i j, r ← rand; store l i j (random_element r)) hh ww
    (mkState (<[l := mkMatrix (allocDims hh ww) hh ww None]> (heap σ)) g (out σ)))
    as (σ' & Hrun & m & -> & Hm).
  - eexists. split; [reflexivity|].
    apply (shaped_start _ _ _ (λ _ _, None)), shaped_allocDims.
  - intros i j τ Hi Hj (m & -> & Hm).
    destruct (set_step (heap σ) (rand_state_after (N.to_nat (N.succ (i * ww + j))) g)
                (out σ) l m hh ww (λ _ _, None) f i j Hm Hi Hj) as (m' & Hset & Hm').
    eexists. split.
    + rewrite (bind_ok _ _ _ _ _ (rand_step _ _ _ _)). exact Hset.
    + exists m'. split; [|done]. by rewrite N.add_succ_r.
  - intros i τ Hi (m & -> & Hm). exists m. split.
    + by replace (N.succ i * ww + 0) with (i * ww + ww) by lia.
    + by apply shaped_next_row.
  - exists m. split; [|by apply (shaped_done _ _ _ (λ _ _, None))].
    unfold Matrix_shape. destruct (decide (random ≠ 0%Z)) as [_|?]; [|done].
    erewrite bind_ok by reflexivity. erewrite bind_ok by reflexivity.
    fold l g. simpl. rewrite (bind_ok _ _ _ _ _ Hrun).
    by rewrite N.add_0_r.
Qed.

(** ** The copy constructor *)

Lemma lookup_other (hp : gmap loc (Matrix val_t)) g o l l' m :
  l ≠ l' → heap (mkState (<[l := m]> hp) g o) !! l' = hp !! l'.
Proof. apply lookup_insert_ne. Qed.

Lemma Matrix_copy_ok σ src m hh ww f :
  heap σ !! src = Some m → holds m hh ww f →
  let l := fresh (dom (heap σ)) in
  ∃ m', Matrix_copy src σ = Ok l (with_obj σ l m') ∧ holds m' hh ww f.
Proof.
  intros Hsrc Hm l.
  assert (l ≠ src) as Hne.
  { intros Heq. pose proof (fresh_loc_None σ) as Hl. fold l in Hl. congruence. }
  destruct (Matrix_shape_zero σ hh ww) as (m0 & Hctor & Hm0). fold l in Hctor.
  destruct (for_dim2_inv
    (λ i j τ, ∃ m', τ = mkState (<[l := m']> (heap σ)) (rng σ) (out σ) ∧
       shaped m' hh ww
         (λ r c, if before i j r c then Some (f r c) else Some (of_int 0)))
    (λ i j, v ← get src i j; set l i j v) hh ww (with_obj σ l m0))
    as (σ' & Hrun & m' & -> & Hm').
  - exists m0. split; [done|]. by apply (shaped_start _ _ _ (λ _ _, Some (of_int 0))).
  - intros i j τ Hi Hj (m' & -> & Hm').
    destruct (set_step (heap σ) (rng σ) (out σ) l m' hh ww _ f i j Hm' Hi Hj)
      as (m'' & Hset & Hm'').
    eexists. split; [|by exists m''].
    erewrite bind_ok; [exact Hset|].
    eapply get_ok; [by rewrite lookup_other|]. by apply (shaped_cell _ _ _ _ _ _ Hm).
  - intros i τ Hi (m' & -> & Hm'). exists m'. split; [done|].
    by apply shaped_next_row.
  - exists m'. split; [|by apply (shaped_done _ _ _ (λ _ _, Some (of_int 0)))].
    unfold Matrix_copy. destruct Hm as (Hh & Hw & _).
    rewrite (bind_ok _ _ _ _ _ (height_ok _ _ _ Hsrc)), Hh.
    rewrite (bind_ok _ _ _ _ _ (width_ok _ _ _ Hsrc)), Hw.
    rewrite (bind_ok _ _ _ _ _ Hctor).
    by rewrite (bind_ok _ _ _ _ _ Hrun).
Qed.

Lemma fresh_ne σ l m : heap σ !! l = Some m → fresh (dom (heap σ)) ≠ l.
Proof. intros Hl Heq. pose proof (fresh_loc_None σ) as Hf. congruence. Qed.

(** ** Transposition *)

Lemma set_step_swapped (hp : gmap loc (Matrix val_t)) g o l m hh ww e0 f i j :
  shaped m ww hh (λ r c, if before i j c r then Some (f c r) else e0 r c) →
  i < hh → j < ww →
  ∃ m', set l j i (f i j) (mkState (<[l := m]> hp) g o)
        = Ok tt (mkState (<[l := m']> hp) g o) ∧
        shaped m' ww hh
          (λ r c, if before i (N.succ j) c r then Some (f c r) else e0 r c).
Proof.
  intros Hm Hi Hj.
  destruct (set_shaped (mkState (<[l := m]> hp) g o) l m ww hh _ j i (f i j)
              (lookup_insert_eq _ _ _) Hm Hj Hi) as (m' & Hset & _ & Hm').
  exists m'. split.
  - rewrite Hset. unfold with_obj. simpl. by rewrite insert_insert_eq.
  - eapply shaped_ext; [|exact Hm']. intros r c _ _. simpl.
    rewrite before_step.
    destruct (N.eqb_spec r j) as [->|], (N.eqb_spec c i) as [->|]; done.
Qed.

Lemma transpose_ok σ src m hh ww f :
  heap σ !! src = Some m → holds m hh ww f →
  let l := fresh (dom (heap σ)) in
  ∃ m', transpose src σ = Ok l (with_obj σ l m') ∧ holds m' ww hh (λ r c, f c r).
Proof.
  intros Hsrc Hm l.
  pose proof (fresh_ne _ _ _ Hsrc) as Hne. fold l in Hne.
  destruct (Matrix_shape_zero σ ww hh) as (m0 & Hctor & Hm0). fold l in Hctor.
  destruct (for_dim2_inv
    (λ i j τ, ∃ m', τ = mkState (<[l := m']> (heap σ)) (rng σ) (out σ) ∧
       shaped m' ww hh
         (λ r c, if before i j c r then Some (f c r) else Some (of_int 0)))
    (λ i j, v ← get src i j; set l j i v) hh ww (with_obj σ l m0))
    as (σ' & Hrun & m' & -> & Hm').
  - exists m0. split; [done|]. eapply shaped_ext; [|exact Hm0].
    intros r c _ _. by rewrite before_start.
  - intros i j τ Hi Hj (m' & -> & Hm').
    destruct (set_step_swapped (heap σ) (rng σ) (out σ) l m' hh ww _ f i j Hm' Hi Hj)
      as (m'' & Hset & Hm'').
    eexists. split; [|by exists m''].
    erewrite bind_ok; [exact Hset|].
    eapply get_ok; [by rewrite lookup_other|]. by apply (shaped_cell _ _ _ _ _ _ Hm).
  - intros i τ Hi (m' & -> & Hm'). exists m'. split; [done|].
    eapply shaped_ext; [|exact Hm']. intros r c Hr _. simpl. by rewrite before_row.
  - exists m'. split.
    + unfold transpose, w, h. destruct Hm as (Hh & Hw & _).
      rewrite (bind_ok _ _ _ _ _ (width_ok _ _ _ Hsrc)), Hw.
      rewrite (bind_ok _ _ _ _ _ (height_ok _ _ _ Hsrc)), Hh.
      rewrite (bind_ok _ _ _ _ _ Hctor).
      by rewrite (bind_ok _ _ _ _ _ Hrun).
    + eapply shaped_ext; [|exact Hm']. intros r c _ Hc. simpl. by rewrite before_end.
Qed.

(** ** Multiplication *)

Lemma lsum_S n t : lsum (S n) t = vadd (lsum n t) (t (N.of_nat n)).
Proof. unfold lsum. by rewrite seq_S, fmap_app, fold_left_app. Qed.

Lemma dot_inner σ lhs rhs L R lh n rw fL fR r c :
  heap σ !! lhs = Some L → heap σ !! rhs = Some R →
  holds L lh n fL → holds R n rw fR → r < lh → c < rw →
  for_dim n (λ i sum, a ← get lhs r i; b ← get rhs i c; mret (vadd sum (vmul a b)))
    (of_int 0) σ
  = Ok (dot_sum fL fR n r c) σ.
Proof.
  intros HL HR HfL HfR Hr Hc.
  destruct (for_dim_inv
    (λ k acc τ, τ = σ ∧ acc = lsum (N.to_nat k) (λ k, vmul (fL r k) (fR k c)))
    (λ i sum, a ← get lhs r i; b ← get rhs i c; mret (vadd sum (vmul a b)))
    n (of_int 0) σ) as (acc & σ' & Hrun & -> & ->); [done| |done].
  intros k acc τ Hk (-> & ->). eexists _, σ. split; [|split; [done|]].
  - erewrite bind_ok; [|by eapply get_ok, (shaped_cell _ _ _ _ _ _ HfL)].
    erewrite bind_ok; [|by eapply get_ok, (shaped_cell _ _ _ _ _ _ HfR)].
    reflexivity.
  - by rewrite N2Nat.inj_succ, lsum_S, N2Nat.id.
Qed.

Lemma dot_ok σ lhs rhs L R lh n rw fL fR :
  heap σ !! lhs = Some L → heap σ !! rhs = Some R →
  holds L lh n fL → holds R n rw fR →
  let l := fresh (dom (heap σ)) in
  ∃ m', dot lhs rhs σ = Ok l (with_obj σ l m') ∧ holds m' lh rw (dot_sum fL fR n).
Proof.
  intros HL HR HfL HfR l.
  pose proof (fresh_ne _ _ _ HL) as HneL. pose proof (fresh_ne _ _ _ HR) as HneR.
  fold l in HneL, HneR.
  destruct (Matrix_shape_zero σ lh rw) as (m0 & Hctor & Hm0). fold l in Hctor.
  destruct (for_dim2_inv
    (λ i j τ, ∃ m', τ = mkState (<[l := m']> (heap σ)) (rng σ) (out σ) ∧
       shaped m' lh rw
         (λ r c, if before i j r c then Some (dot_sum fL fR n r c)
                 else Some (of_int 0)))
    (λ r c, sum ← for_dim n (λ i sum,
                     a ← get lhs r i; b ← get rhs i c;
                     mret (vadd sum (vmul a b))) (of_int 0);
            set l r c sum) lh rw (with_obj σ l m0))
    as (σ' & Hrun & m' & -> & Hm').
  - exists m0. split; [done|]. by apply (shaped_start _ _ _ (λ _ _, Some (of_int 0))).
  - intros i j τ Hi Hj (m' & -> & Hm').
    destruct (set_step (heap σ) (rng σ) (out σ) l m' lh rw _ (dot_sum fL fR n)
                i j Hm' Hi Hj) as (m'' & Hset & Hm'').
    eexists. split; [|by exists m''].
    erewrite bind_ok; [exact Hset|].
    eapply dot_inner; [by rewrite lookup_other|by rewrite lookup_other|done..].
  - intros i τ Hi (m' & -> & Hm'). exists m'. split; [done|].
    by apply shaped_next_row.
  - exists m'. split; [|by apply (shaped_done _ _ _ (λ _ _, Some (of_int 0)))].
    unfold dot, w, h.
    destruct HfL as (HLh & HLw & _), HfR as (HRh & HRw & _).
    rewrite (bind_ok _ _ _ _ _ (width_ok _ _ _ HL)), HLw.
    rewrite (bind_ok _ _ _ _ _ (height_ok _ _ _ HR)), HRh.
    destruct (decide (n ≠ n)) as [?|_]; [done|].
    rewrite (bind_ok _ _ _ _ _ (height_ok _ _ _ HL)), HLh.
    rewrite (bind_ok _ _ _ _ _ (width_ok _ _ _ HR)), HRw.
    rewrite (bind_ok _ _ _ _ _ Hctor).
    by rewrite (bind_ok _ _ _ _ _ Hrun).
Qed.

Lemma dot_throw σ lhs rhs L R :
  heap σ !! lhs = Some L → heap σ !! rhs = Some R → _width L ≠ _height R →
  dot lhs rhs σ
  = Throw (domain_error "Invalid matrix dimensions for static dot multiplication!") σ.
Proof.
  intros HL HR Hne. unfold dot, w, h.
  rewrite (bind_ok _ _ _ _ _ (width_ok _ _ _ HL)).
  rewrite (bind_ok _ _ _ _ _ (height_ok _ _ _ HR)).
  by destruct (decide _).
Qed.

(** ** Compound assignment *)

Lemma before_self i j : before i j i j = false.
Proof.
  unfold before. rewrite N.ltb_irrefl, N.eqb_refl, N.ltb_irrefl. done.
Qed.

Lemma holds_agree m hh ww f g r c :
  holds m hh ww f → holds m hh ww g → r < hh → c < ww → f r c = g r c.
Proof.
  intros Hf Hg Hr Hc.
  pose proof (shaped_cell _ _ _ _ _ _ Hf Hr Hc) as H1.
  pose proof (shaped_cell _ _ _ _ _ _ Hg Hr Hc) as H2. congruence.
Qed.

(** The element-wise pass both operators share, for an operator [op]. *)
Lemma elementwise_pass (op : val_t → val_t → val_t) σ this o A B hh ww fA fB :
  heap σ !! this = Some A → heap σ !! o = Some B →
  holds A hh ww fA → holds B hh ww fB →
  ∃ m', for_dim_ hh (λ i,
          for_dim_ ww (λ j,
            a ← get this i j; b ← get o i j; set this i j (op a b))) σ
        = Ok tt (with_obj σ this m') ∧
        holds m' hh ww (λ r c, op (fA r c) (fB r c)).
Proof.
  intros HA HB HfA HfB.
  set (f := λ r c, op (fA r c) (fB r c)).
  destruct (for_dim2_inv
    (λ i j τ, ∃ m', τ = mkState (<[this := m']> (heap σ)) (rng σ) (out σ) ∧
       shaped m' hh ww
         (λ r c, if before i j r c then Some (f r c) else Some (fA r c)))
    (λ i j, a ← get this i j; b ← get o i j; set this i j (op a b)) hh ww σ)
    as (σ' & Hrun & m' & -> & Hm').
  - exists A. split.
    + rewrite insert_id by done. by rewrite state_eta.
    + by apply (shaped_start _ _ _ (λ r c, Some (fA r c))).
  - intros i j τ Hi Hj (m' & -> & Hm').
    destruct (set_step (heap σ) (rng σ) (out σ) this m' hh ww _ f i j Hm' Hi Hj)
      as (m'' & Hset & Hm'').
    eexists. split; [|by exists m''].
    assert (cell m' i j = Some (Some (fA i j))) as Hcell.
    { rewrite (shaped_cell _ _ _ _ _ _ Hm' Hi Hj). by rewrite before_self. }
    erewrite bind_ok; [|by eapply get_ok; [apply lookup_insert_eq|]].
    erewrite bind_ok; [exact Hset|].
    destruct (decide (this = o)) as [<-|Hne].
    + eapply get_ok; [apply lookup_insert_eq|]. rewrite Hcell.
      assert (A = B) as <- by congruence.
      by rewrite (holds_agree A hh ww fA fB i j).
    + eapply get_ok; [by rewrite lookup_other|].
      by apply (shaped_cell _ _ _ _ _ _ HfB).
  - intros i τ Hi (m' & -> & Hm'). exists m'. split; [done|].
    by apply shaped_next_row.
  - exists m'. split; [done|].
    by apply (shaped_done _ _ _ (λ r c, Some (fA r c))).
Qed.

Lemma shapes_differ_ok σ this o A B :
  heap σ !! this = Some A → heap σ !! o = Some B →
  shapes_differ this o σ
  = Ok (bool_decide (_width A ≠ _width B ∨ _height A ≠ _height B)) σ.
Proof.
  intros HA HB. unfold shapes_differ, w, h.
  rewrite (bind_ok _ _ _ _ _ (width_ok _ _ _ HA)).
  rewrite (bind_ok _ _ _ _ _ (width_ok _ _ _ HB)).
  destruct (decide (_width A ≠ _width B)) as [Hw|Hw].
  - by rewrite bool_decide_eq_true_2 by tauto.
  - rewrite (bind_ok _ _ _ _ _ (height_ok _ _ _ HA)).
    rewrite (bind_ok _ _ _ _ _ (height_ok _ _ _ HB)).
    unfold mret, M_ret, ret. f_equal. apply bool_decide_ext. tauto.
Qed.

Lemma fresh_with_obj σ l m m' :
  heap σ !! l = Some m →
  fresh (dom (heap (with_obj σ l m'))) = fresh (dom (heap σ)).
Proof.
  intros Hl. unfold with_obj. simpl. by rewrite dom_insert_lookup_L.
Qed.

Lemma compound_assign_ok op what σ this o A B hh ww fA fB :
  heap σ !! this = Some A → heap σ !! o = Some B →
  holds A hh ww fA → holds B hh ww fB →
  let l := fresh (dom (heap σ)) in
  ∃ m' mc, compound_assign op what this o σ
           = Ok l (with_obj (with_obj σ this m') l mc) ∧
           holds m' hh ww (λ r c, op (fA r c) (fB r c)) ∧
           holds mc hh ww (λ r c, op (fA r c) (fB r c)).
Proof.
  intros HA HB HfA HfB l.
  destruct (elementwise_pass op σ this o A B hh ww fA fB HA HB HfA HfB)
    as (m' & Hpass & Hm').
  destruct (Matrix_copy_ok (with_obj σ this m') this m' hh ww _
              (with_obj_lookup _ _ _) Hm') as (mc & Hcopy & Hmc).
  rewrite (fresh_with_obj _ _ _ _ HA) in Hcopy. fold l in Hcopy.
  exists m', mc. split; [|done].
  unfold compound_assign.
  rewrite (bind_ok _ _ _ _ _ (shapes_differ_ok _ _ _ _ _ HA HB)).
  destruct HfA as (HAh & HAw & _), HfB as (HBh & HBw & _).
  rewrite bool_decide_eq_false_2 by (intros [?|?]; congruence).
  unfold h, w.
  rewrite (bind_ok _ _ _ _ _ (height_ok _ _ _ HA)), HAh.
  rewrite (bind_ok _ _ _ _ _ (width_ok _ _ _ HA)), HAw.
  by rewrite (bind_ok _ _ _ _ _ Hpass).
Qed.

Lemma compound_assign_throw op what σ this o A B :
  heap σ !! this = Some A → heap σ !! o = Some B →
  _height A ≠ _height B ∨ _width A ≠ _width B →
  compound_assign op what this o σ = Throw (domain_error what) σ.
Proof.
  intros HA HB Hne. unfold compound_assign.
  rewrite (bind_ok _ _ _ _ _ (shapes_differ_ok _ _ _ _ _ HA HB)).
  by rewrite bool_decide_eq_true_2 by tauto.
Qed.

Lemma operator_sub_assign_unfold :
  operator_sub_assign
  = compound_assign vsub "Invalid matrix dimesions for element-wise subtract!".
Proof. reflexivity. Qed.

Lemma operator_mul_assign_unfold :
  operator_mul_assign
  = compound_assign vmul "Invalid matrix dimesions for element-wise multiply!".
Proof. reflexivity. Qed.

(** ** The vector constructor *)

(** A loop whose body throws at the iterations in [B] and preserves [I] at
    the others: it completes when no iteration is in [B] and throws when
    one is. *)
Lemma for_range_cases (I : dim_t → state val_t → Prop) (B : dim_t → Prop)
    (Q : exn → state val_t → Prop) body n i σ :
  (∀ j, B j ∨ ¬ B j) →
  I i σ →
  (∀ j τ, i ≤ j < i + N.of_nat n → I j τ → ¬ B j →
     ∃ τ', body j τ = Ok tt τ' ∧ I (N.succ j) τ') →
  (∀ j τ, i ≤ j < i + N.of_nat n → I j τ → B j →
     ∃ x τ', body j τ = Throw x τ' ∧ Q x τ') →
  ((∀ j, i ≤ j < i + N.of_nat n → ¬ B j) ∧
   ∃ σ', for_range n i (λ k _, body k) tt σ = Ok tt σ' ∧ I (i + N.of_nat n) σ') ∨
  ((∃ j, i ≤ j < i + N.of_nat n ∧ B j) ∧
   ∃ x τ', for_range n i (λ k _, body k) tt σ = Throw x τ' ∧ Q x τ').
Proof.
  intros HB. revert i σ. induction n as [|n IH]; intros i σ Hi Hok Hthrow.
  - left. split; [intros j ?; lia|]. exists σ. split; [done|]. by rewrite N.add_0_r.
  - destruct (HB i) as [Hbad|Hgood].
    + right. split; [exists i; split; [lia|done]|].
      destruct (Hthrow i σ) as (x & τ' & Hb & HQ); [lia|done..|].
      exists x, τ'. split; [|done]. simpl. by rewrite (bind_throw _ _ _ _ _ Hb).
    + destruct (Hok i σ) as (τ & Hb & Hτ); [lia|done..|].
      destruct (IH (N.succ i) τ Hτ) as [(Hall & σ' & Hrun & Hfin)|((j & Hj & HBj) & x & τ' & Hrun & HQ)].
      { intros j υ Hj. apply Hok. lia. }
      { intros j υ Hj. apply Hthrow. lia. }
      * left. split.
        -- intros j Hj. destruct (decide (j = i)) as [->|]; [done|]. apply Hall. lia.
        -- exists σ'. split; [simpl; by rewrite (bind_ok _ _ _ _ _ Hb)|].
           by replace (i + N.of_nat (S n)) with (N.succ i + N.of_nat n) by lia.
      * right. split; [exists j; split; [lia|done]|].
        exists x, τ'. split; [|done]. simpl. by rewrite (bind_ok _ _ _ _ _ Hb).
Qed.

Lemma for_dim__cases (I : dim_t → state val_t → Prop) (B : dim_t → Prop)
    (Q : exn → state val_t → Prop) body bound σ :
  (∀ j, B j ∨ ¬ B j) →
  I 0 σ →
  (∀ j τ, j < bound → I j τ → ¬ B j → ∃ τ', body j τ = Ok tt τ' ∧ I (N.succ j) τ') →
  (∀ j τ, j < bound → I j τ → B j → ∃ x τ', body j τ = Throw x τ' ∧ Q x τ') →
  ((∀ j, j < bound → ¬ B j) ∧ ∃ σ', for_dim_ bound body σ = Ok tt σ' ∧ I bound σ') ∨
  ((∃ j, j < bound ∧ B j) ∧ ∃ x τ', for_dim_ bound body σ = Throw x τ' ∧ Q x τ').
Proof.
  intros HB H0 Hok Hthrow.
  destruct (for_range_cases I B Q body (N.to_nat bound) 0 σ HB H0)
    as [(Hall & σ' & Hrun & Hfin)|((j & Hj & HBj) & x & τ' & Hrun & HQ)].
  - intros j τ Hj. apply Hok. lia.
  - intros j τ Hj. apply Hthrow. lia.
  - left. split; [intros j Hj; apply Hall; lia|]. exists σ'. split; [done|].
    by rewrite N2Nat.id, N.add_0_l in Hfin.
  - right. split; [exists j; split; [lia|done]|]. by exists x, τ'.
Qed.

(** Copying one row of the right length. *)
Lemma copy_row (hp : gmap loc (Matrix val_t)) g o l m hh ww src row i :
  src !! N.to_nat i = Some row → N.of_nat (length row) = ww → i < hh →
  shaped m hh ww (λ r c, if before i 0 r c then Some (vector_elem src r c)
                         else Some (of_int 0)) →
  ∃ m', for_dim_ ww (λ j, match row !! N.to_nat j with
                          | None => undefined OutOfBounds
                          | Some v => set l i j v
                          end) (mkState (<[l := m]> hp) g o)
        = Ok tt (mkState (<[l := m']> hp) g o) ∧
        shaped m' hh ww (λ r c, if before (N.succ i) 0 r c
                                then Some (vector_elem src r c) else Some (of_int 0)).
Proof.
  intros Hrow Hlen Hi Hm.
  destruct (for_dim__inv
    (λ j τ, ∃ m', τ = mkState (<[l := m']> hp) g o ∧
       shaped m' hh ww (λ r c, if before i j r c then Some (vector_elem src r c)
                               else Some (of_int 0)))
    (λ j, match row !! N.to_nat j with
          | None => undefined OutOfBounds
          | Some v => set l i j v
          end) ww (mkState (<[l := m]> hp) g o)) as (σ' & Hrun & m' & -> & Hm').
  - by exists m.
  - intros j τ Hj (m' & -> & Hm').
    destruct (lookup_lt_is_Some_2 row (N.to_nat j)) as [v Hv]; [lia|].
    rewrite Hv.
    destruct (set_step hp g o l m' hh ww _ (vector_elem src) i j Hm' Hi Hj)
      as (m'' & Hset & Hm'').
    eexists. split; [|by exists m''].
    rewrite <- Hset. f_equal. unfold vector_elem, vector_at. rewrite Hrow. simpl.
    by rewrite Hv.
  - exists m'. split; [done|]. by apply shaped_next_row.
Qed.

Lemma unwinding_ok {A} (c : M A) cleanup σ a σ' :
  c σ = Ok a σ' → unwinding c cleanup σ = Ok a σ'.
Proof. intros Hc. unfold unwinding. by rewrite Hc. Qed.

Lemma unwinding_throw {A} (c : M A) cleanup σ x σ' σ'' :
  c σ = Throw x σ' → cleanup σ' = Ok tt σ'' → unwinding c cleanup σ = Throw x σ''.
Proof. intros Hc Hcl. unfold unwinding. by rewrite Hc, Hcl. Qed.

Lemma destroy_fresh σ m :
  destroy (fresh (dom (heap σ))) (mkState (<[fresh (dom (heap σ)) := m]> (heap σ)) (rng σ) (out σ))
  = Ok tt σ.
Proof.
  unfold destroy. simpl. rewrite delete_insert_id by apply fresh_loc_None.
  by rewrite state_eta.
Qed.

Lemma to_dim_t_small n : n < 4294967296 → to_dim_t n = n.
Proof. apply N.mod_small. Qed.

Lemma Matrix_from_vector_cases σ (src : list (list val_t)) src0 :
  src !! 0%nat = Some src0 →
  N.of_nat (length src) < 4294967296 → N.of_nat (length src0) < 4294967296 →
  let l := fresh (dom (heap σ)) in
  let hh := N.of_nat (length src) in
  let ww := N.of_nat (length src0) in
  ((∀ i row, src !! i = Some row → N.of_nat (length row) = ww) ∧
   ∃ m, Matrix_from_vector src σ = Ok l (with_obj σ l m) ∧
        holds m hh ww (vector_elem src)) ∨
  ((∃ i row, src !! i = Some row ∧ N.of_nat (length row) ≠ ww) ∧
   Matrix_from_vector src σ
   = Throw (domain_error "Non rectangular vector input!") σ).
Proof.
  intros Hsrc0 Hh Hw l hh ww.
  destruct (Matrix_shape_zero σ hh ww) as (m0 & Hctor & Hm0). fold l in Hctor.
  pose proof Hm0 as (Hm0h & Hm0w & _).
  set (body := λ i : dim_t,
    match src !! N.to_nat i with
    | None => undefined OutOfBounds
    | Some row =>
        if decide (N.of_nat (length row) ≠ ww) then
          throw (domain_error "Non rectangular vector input!")
        else
          for_dim_ ww (λ j,
            match row !! N.to_nat j with
            | None => undefined OutOfBounds
            | Some v => set l i j v
            end)
    end : M unit).
  assert (Matrix_from_vector src σ
          = (unwinding (for_dim_ hh body) (destroy l);; mret l) (with_obj σ l m0))
    as ->.
  { unfold Matrix_from_vector. rewrite Hsrc0.
    rewrite !to_dim_t_small by done. fold hh ww.
    rewrite (bind_ok _ _ _ _ _ Hctor).
    unfold mbind at 1 3, M_bind, bind. f_equal. unfold unwinding.
    unfold mbind at 1, M_bind, bind, deref. rewrite with_obj_lookup.
    by rewrite Hm0h, Hm0w. }
  destruct (for_dim__cases
    (λ i τ, ∃ m, τ = mkState (<[l := m]> (heap σ)) (rng σ) (out σ) ∧
       shaped m hh ww (λ r c, if before i 0 r c then Some (vector_elem src r c)
                              else Some (of_int 0)))
    (λ i, ∃ row, src !! N.to_nat i = Some row ∧ N.of_nat (length row) ≠ ww)
    (λ x τ, x = domain_error "Non rectangular vector input!" ∧
            ∃ m, τ = mkState (<[l := m]> (heap σ)) (rng σ) (out σ))
    body hh (with_obj σ l m0))
    as [(Hall & σ' & Hrun & m & -> & Hm)|((j & Hj & row & Hrow & Hbad) & x & τ & Hrun & -> & m & ->)].
  - intros j. destruct (src !! N.to_nat j) as [row|]; [|right; by intros (? & ? & _)].
    destruct (decide (N.of_nat (length row) = ww)) as [Heq|Hne].
    + right. intros (row' & ? & ?). congruence.
    + left. by exists row.
  - exists m0. split; [done|].
    by apply (shaped_start _ _ _ (λ _ _, Some (of_int 0))).
  - intros j τ Hj (m & -> & Hm) Hgood.
    destruct (lookup_lt_is_Some_2 src (N.to_nat j)) as [row Hrow]; [lia|].
    assert (N.of_nat (length row) = ww) as Hlen.
    { destruct (decide (N.of_nat (length row) = ww)); [done|].
      destruct Hgood. by exists row. }
    destruct (copy_row (heap σ) (rng σ) (out σ) l m hh ww src row j Hrow Hlen Hj Hm)
      as (m' & Hcopy & Hm').
    eexists. split; [|by exists m'].
    unfold body. rewrite Hrow. by destruct (decide _).
  - intros j τ Hj (m & -> & Hm) (row & Hrow & Hbad).
    eexists _, _. split; [|split; [done|by exists m]].
    unfold body. rewrite Hrow. by destruct (decide _).
  - left. split.
    + intros i row Hrow.
      destruct (decide (N.of_nat (length row) = ww)) as [|Hne]; [done|].
      destruct (Hall (N.of_nat i)).
      * apply lookup_lt_Some in Hrow. unfold hh. lia.
      * exists row. by rewrite Nat2N.id.
    + exists m. split; [|by apply (shaped_done _ _ _ (λ _ _, Some (of_int 0)))].
      by rewrite (bind_ok _ _ _ _ _ (unwinding_ok _ _ _ _ _ Hrun)).
  - right. split.
    + by exists (N.to_nat j), row.
    + apply bind_throw. eapply unwinding_throw; [exact Hrun|]. apply destroy_fresh.
Qed.

(** A vector so long that its size wraps to zero in [dim_t]. *)
Lemma Matrix_from_vector_wrapped σ (n : nat) :
  (0 < n)%nat → to_dim_t (N.of_nat n) = 0 →
  ∃ m, Matrix_from_vector (replicate n ([] : list val_t)) σ
       = Ok (fresh (dom (heap σ))) (with_obj σ (fresh (dom (heap σ))) m) ∧
       _height m = 0.
Proof.
  intros Hn Hwrap.
  destruct (Matrix_shape_zero σ 0 0) as (m0 & Hctor & Hm0h & _).
  exists m0. split; [|done].
  unfold Matrix_from_vector. rewrite lookup_replicate_2 by done.
  rewrite length_replicate, Hwrap.
  change (to_dim_t (N.of_nat (length (@nil val_t)))) with 0.
  rewrite (bind_ok _ _ _ _ _ Hctor).
  erewrite bind_ok; [reflexivity|]. apply unwinding_ok.
  erewrite bind_ok; [|unfold deref; by rewrite with_obj_lookup].
  by rewrite Hm0h.
Qed.

(** ** What a caller observes of a matrix *)

Lemma holds_observe σ l m hh ww f :
  heap σ !! l = Some m → holds m hh ww f →
  height l σ = Ok hh σ ∧ width l σ = Ok ww σ ∧
  ∀ r c, r < hh → c < ww → get l r c σ = Ok (f r c) σ.
Proof.
  intros Hl Hm. pose proof Hm as (Hh & Hw & _).
  split; [by rewrite (height_ok _ _ _ Hl), Hh|].
  split; [by rewrite (width_ok _ _ _ Hl), Hw|].
  intros r c Hr Hc. eapply get_ok; [done|]. by apply (shaped_cell _ _ _ _ _ _ Hm).
Qed.

Lemma with_obj_fresh_frame σ m l' :
  is_Some (heap σ !! l') →
  heap (with_obj σ (fresh (dom (heap σ))) m) !! l' = heap σ !! l'.
Proof.
  intros [m' Hl']. apply with_obj_lookup_ne. by eapply fresh_ne.
Qed.

(** ** Out-of-range access *)

Lemma get_never_throws σ l y x ex τ : get l y x σ ≠ Throw ex τ.
Proof.
  unfold get, load, deref, mbind, M_bind, bind.
  destruct (heap σ !! l) as [m|]; [|done]. by destruct (cell m y x) as [[?|]|].
Qed.

Lemma set_never_throws σ l y x v ex τ : set l y x v σ ≠ Throw ex τ.
Proof.
  unfold set, store, deref, mbind, M_bind, bind.
  destruct (heap σ !! l) as [m|]; [|done].
  destruct (_data m !! N.to_nat y) as [row|]; [|done]. by destruct (decide _).
Qed.

Lemma exact_storage_out m y x :
  exact_storage m → _height m ≤ y ∨ _width m ≤ x → cell m y x = None.
Proof.
  intros Hm Hout. destruct (cell m y x) as [c|] eqn:Hc; [|done].
  destruct (Hm y x) as [? ?]; [by rewrite Hc|]. lia.
Qed.

Lemma access_out_of_range σ l m y x v :
  heap σ !! l = Some m → exact_storage m → _height m ≤ y ∨ _width m ≤ x →
  get l y x σ = Undef OutOfBounds ∧ set l y x v σ = Undef OutOfBounds.
Proof.
  intros Hl Hm Hout. pose proof (exact_storage_out _ _ _ Hm Hout) as Hc. split.
  - unfold get. by rewrite (load_cell _ _ _ _ _ Hl), Hc.
  - by apply (store_out _ _ m).
Qed.

(** ** The element range of the randomized constructor *)

Lemma random_element_range `{!ValLe val_t} `{!ValOrder val_t} `{!CRandSpec}
    (r : Z) :
  (0 ≤ r ≤ RAND_MAX)%Z →
  vle (of_int (-1)) (random_element r) ∧ vle (random_element r) (of_int 1).
Proof.
  intros [Hlo Hhi].
  pose proof RAND_MAX_min as Hmin. pose proof RAND_MAX_int as Hmax.
  assert (vle (of_int 0) (of_int 0)) as H00 by (apply of_int_mono; lia).
  assert (vle (of_int 1) (of_int 1)) as H11 by (apply of_int_mono; lia).
  assert (vle (of_int 2) (of_int 2)) as H22 by (apply of_int_mono; lia).
  set (q := vdiv (of_int r) (of_int RAND_MAX)).
  assert (vle (of_int 0) q) as Hq0.
  { eapply vle_trans; [apply (vdiv_zero RAND_MAX); lia|].
    apply vdiv_mono; lia. }
  assert (vle q (of_int 1)) as Hq1.
  { eapply vle_trans; [|apply (vdiv_self RAND_MAX); lia].
    apply vdiv_mono; lia. }
  assert (vle (of_int 0) (vmul q (of_int 2))) as Hlow.
  { eapply vle_trans; [apply vmul_zero|]. by apply vmul_mono. }
  assert (vle (vmul q (of_int 2)) (of_int 2)) as Hhigh.
  { eapply vle_trans; [|apply vmul_one]. by apply vmul_mono. }
  unfold random_element. fold q. split.
  - eapply vle_trans; [apply vsub_zero|]. by apply vsub_mono.
  - eapply vle_trans; [|apply vsub_two]. by apply vsub_mono.
Qed.

Lemma rand_nth_range `{!CRandSpec} g k : (0 ≤ rand_nth g k ≤ RAND_MAX)%Z.
Proof. apply c_rand_range. Qed.

(** ** Printing *)

Lemma append_assoc (a b c : string) : (a +:+ b) +:+ c = a +:+ (b +:+ c).
Proof.
  induction a as [|x a IH]; [done|].
  change (String x ((a +:+ b) +:+ c) = String x (a +:+ (b +:+ c))).
  by rewrite IH.
Qed.

Lemma append_nil_r (a : string) : a +:+ "" = a.
Proof.
  induction a as [|x a IH]; [done|].
  change (String x (a +:+ "") = String x a). by rewrite IH.
Qed.

Lemma cat_snoc {A} (g : A → string) (l : list A) x :
  cat g (l ++ [x]) = cat g l +:+ g x.
Proof.
  induction l as [|y l IH].
  - change (g x +:+ "" = "" +:+ g x). by rewrite append_nil_r.
  - change (g y +:+ cat g (l ++ [x]) = (g y +:+ cat g l) +:+ g x).
    by rewrite IH, append_assoc.
Qed.

Lemma indices_succ n : indices (N.succ n) = indices n ++ [n].
Proof.
  unfold indices. rewrite N2Nat.inj_succ, seq_S, fmap_app. simpl.
  by rewrite N2Nat.id.
Qed.

Lemma for_int__small bound (body : dim_t → M (val_t:=val_t) unit) :
  bound ≤ INT_MAX → for_int_ bound body = for_dim_ bound body.
Proof. intros Hb. unfold for_int_. by rewrite (proj2 (N.leb_le _ _) Hb). Qed.

Section Print.
Context {PF : PrintfF val_t}.

Lemma print_row σ this m hh ww f i :
  heap σ !! this = Some m → holds m hh ww f → i < hh →
  for_dim_ ww (λ j, v ← get this i j; printf (" " +:+ printf_plus_f 3 v)) σ
  = Ok tt (mkState (heap σ) (rng σ)
             (out σ +:+ cat (λ c, " " +:+ printf_plus_f 3 (f i c)) (indices ww))).
Proof.
  intros Hl Hm Hi.
  set (g := λ c, " " +:+ printf_plus_f 3 (f i c)).
  destruct (for_dim__inv
    (λ j τ, τ = mkState (heap σ) (rng σ) (out σ +:+ cat g (indices j)))
    (λ j, v ← get this i j; printf (" " +:+ printf_plus_f 3 v)) ww σ)
    as (σ' & Hrun & ->); [| |done].
  - cbn. by rewrite append_nil_r, state_eta.
  - intros j τ Hj ->. eexists. split.
    + erewrite bind_ok; [reflexivity|].
      eapply get_ok; [exact Hl|]. by apply (shaped_cell _ _ _ _ _ _ Hm).
    + unfold printf. simpl. by rewrite indices_succ, cat_snoc, append_assoc.
Qed.

Lemma print_ok σ this m hh ww f precision :
  heap σ !! this = Some m → holds m hh ww f → hh ≤ INT_MAX → ww ≤ INT_MAX →
  print this precision σ
  = Ok tt (mkState (heap σ) (rng σ) (out σ +:+ print_text f hh ww)).
Proof.
  intros Hl Hm Hhh Hww. pose proof Hm as (Hh & Hw & _).
  set (g := λ r, cat (λ c, " " +:+ printf_plus_f 3 (f r c)) (indices ww) +:+ newline).
  destruct (for_dim__inv
    (λ i τ, τ = mkState (heap σ) (rng σ) (out σ +:+ cat g (indices i)))
    (λ i, for_int_ ww (λ j, v ← get this i j; printf (" " +:+ printf_plus_f 3 v));;
          printf newline) hh σ)
    as (σ' & Hrun & ->).
  - cbn. by rewrite append_nil_r, state_eta.
  - intros i τ Hi ->. eexists. split.
    + rewrite for_int__small by done.
      erewrite bind_ok; [reflexivity|]. by eapply print_row.
    + unfold printf. simpl.
      by rewrite indices_succ, cat_snoc, !append_assoc.
  - unfold print.
    rewrite (bind_ok _ _ _ _ _ (height_ok _ _ _ Hl)), Hh.
    rewrite (bind_ok _ _ _ _ _ (width_ok _ _ _ Hl)), Hw.
    rewrite for_int__small by done.
    rewrite (bind_ok _ _ _ _ _ Hrun). unfold printf. simpl.
    by rewrite append_assoc.
Qed.

End Print.

End Proofs.

(** * The element types and the generator meet their contracts *)

#[export] Instance Z_ValOrder : ValOrder Z.
Proof.
  split; cbn.
  - apply Z.le_trans.
  - intros a b _ Hab _. exact Hab.
  - intros a b k _ Hab _ Hk _. apply Z.quot_le_mono; lia.
  - intros k Hk _. rewrite Z.quot_0_l by lia. done.
  - intros k Hk _. rewrite Z.quot_same by lia. done.
  - intros x y _ Hxy _. lia.
  - done.
  - done.
  - intros x y _ Hxy _. lia.
  - done.
  - done.
Qed.

Lemma Q_of_int_mono (a b : Z) : (a ≤ b)%Z → (inject_Z a <= inject_Z b)%Q.
Proof. intros Hab. by rewrite <- Zle_Qle. Qed.

Lemma Q_positive (d : Q) : (inject_Z 1 <= d)%Q → (0 < d)%Q.
Proof. intros Hd. eapply Qlt_le_trans; [|exact Hd]. done. Qed.

Lemma Q_vdiv_mono (x y d : Q) :
  (inject_Z 1 <= d)%Q → (x <= y)%Q → (x / d <= y / d)%Q.
Proof.
  intros Hd Hxy. apply Qmult_le_compat_r; [done|].
  apply Qinv_le_0_compat, Qlt_le_weak, Q_positive, Hd.
Qed.

Lemma Q_vdiv_zero (d : Q) : (inject_Z 1 <= d)%Q → (inject_Z 0 <= inject_Z 0 / d)%Q.
Proof.
  intros Hd. apply Qmult_le_0_compat; [done|].
  apply Qinv_le_0_compat, Qlt_le_weak, Q_positive, Hd.
Qed.

Lemma Q_vdiv_self (d : Q) : (inject_Z 1 <= d)%Q → (d / d <= inject_Z 1)%Q.
Proof.
  intros Hd. unfold Qdiv. rewrite Qmult_inv_r; [done|].
  intros Heq. apply Q_positive in Hd. rewrite Heq in Hd. by apply Qlt_irrefl in Hd.
Qed.

Lemma Q_vmul_mono (x y : Q) : (x <= y)%Q → (x * inject_Z 2 <= y * inject_Z 2)%Q.
Proof. intros Hxy. by apply Qmult_le_compat_r. Qed.

Lemma Q_vsub_mono (x y : Q) : (x <= y)%Q → (x - inject_Z 1 <= y - inject_Z 1)%Q.
Proof. intros Hxy. apply Qplus_le_compat; [done|apply Qle_refl]. Qed.

#[export] Instance Q_ValOrder : ValOrder Q.
Proof.
  split; cbn.
  - apply Qle_trans.
  - intros a b _ Hab _. by apply Q_of_int_mono.
  - intros a b k _ Hab _ Hk _. apply Q_vdiv_mono; by apply Q_of_int_mono.
  - intros k Hk _. by apply Q_vdiv_zero, Q_of_int_mono.
  - intros k Hk _. by apply Q_vdiv_self, Q_of_int_mono.
  - intros x y _ Hxy _. by apply Q_vmul_mono.
  - done.
  - done.
  - intros x y _ Hxy _. by apply Q_vsub_mono.
  - done.
  - done.
Qed.

Lemma wrap_int_small (z : Z) :
  (-2147483648 ≤ z)%Z → (z ≤ 2147483647)%Z → wrap_int z = z.
Proof. intros Hlo Hhi. unfold wrap_int. rewrite Z.mod_small by lia. lia. Qed.

Lemma quot_unit (a k : Z) : (0 ≤ a)%Z → (a ≤ k)%Z → (1 ≤ k)%Z → (0 ≤ a ÷ k ≤ 1)%Z.
Proof.
  intros Ha Hak Hk. rewrite Z.quot_div_nonneg by lia. split.
  - apply Z.div_pos; lia.
  - apply Z.div_le_upper_bound; lia.
Qed.

(** [int] meets the laws: at the values they speak of nothing wraps. *)
#[export] Instance int_ValOrder : ValOrder c_int.
Proof.
  split; cbn.
  - intros x y z. apply Z.le_trans.
  - intros a b Ha Hab Hb. rewrite !wrap_int_small by lia. exact Hab.
  - intros a b k Ha Hab Hbk Hk Hmax.
    rewrite (wrap_int_small a), (wrap_int_small b), (wrap_int_small k) by lia.
    pose proof (quot_unit a k). pose proof (quot_unit b k).
    rewrite !wrap_int_small by lia. apply Z.quot_le_mono; lia.
  - intros k Hk Hmax. rewrite (wrap_int_small k) by lia.
    change (wrap_int 0) with 0%Z. rewrite Z.quot_0_l by lia. done.
  - intros k Hk Hmax. rewrite (wrap_int_small k) by lia.
    rewrite Z.quot_same by lia. done.
  - intros [x] [y]. cbn. change (wrap_int 0) with 0%Z.
    change (wrap_int 1) with 1%Z. change (wrap_int 2) with 2%Z.
    intros Hx Hxy Hy. rewrite !wrap_int_small by lia. lia.
  - done.
  - done.
  - intros [x] [y]. cbn. change (wrap_int 0) with 0%Z.
    change (wrap_int 1) with 1%Z. change (wrap_int 2) with 2%Z.
    intros Hx Hxy Hy. rewrite !wrap_int_small by lia. lia.
  - done.
  - done.
Qed.

(** [unsigned] does not: [0 <= 2], but [0u - 1] is above [2u - 1]. *)
Remark unsigned_not_ordered : ¬ ValOrder c_unsigned.
Proof.
  intros VO.
  pose proof (vsub_mono (val_t := c_unsigned) (of_int 0) (of_int 2)) as H.
  vm_compute in H. apply H; solve [reflexivity | intros E; discriminate E].
Qed.

Lemma sample_rand_range (g : Z) :
  (0 ≤ (((g * 1103515245 + 12345) mod 4294967296) / 65536) mod 32768 ≤ 32767)%Z.
Proof.
  pose proof (Z.mod_pos_bound
    ((((g * 1103515245 + 12345) mod 4294967296) / 65536))%Z 32768%Z). lia.
Qed.

#[export] Instance sample_rand_spec : CRandSpec :=
  {| RAND_MAX_min := Z.le_refl 32767;
     RAND_MAX_int := ltac:(done) : (32767 ≤ 2147483647)%Z;
     c_rand_range := sample_rand_range |}.

(** * The example objects *)

Lemma example_row_holds : holds example_row 1 2 (row_elements 5 7).
Proof.
  repeat split. intros r c Hr Hc.
  assert (r = 0) as -> by lia.
  assert (c = 0 ∨ c = 1) as [-> | ->] by lia; reflexivity.
Qed.

Lemma example_row'_holds : holds example_row' 1 2 (row_elements 2 3).
Proof.
  repeat split. intros r c Hr Hc.
  assert (r = 0) as -> by lia.
  assert (c = 0 ∨ c = 1) as [-> | ->] by lia; reflexivity.
Qed.

Lemma example_column_holds : holds example_column 2 1 (column_elements 3 4).
Proof.
  repeat split. intros r c Hr Hc.
  assert (c = 0) as -> by lia.
  assert (r = 0 ∨ r = 1) as [-> | ->] by lia; reflexivity.
Qed.

Lemma exact_storage_lengths {val_t} (m : Matrix val_t) :
  length (_data m) = N.to_nat (_height m) →
  Forall (λ row, length row = N.to_nat (_width m)) (_data m) →
  exact_storage m.
Proof.
  intros Hrows Hcols r c [x Hx]. unfold cell in Hx.
  destruct (_data m !! N.to_nat r) as [row|] eqn:Hrow; [|done]. simpl in Hx.
  pose proof (lookup_lt_Some _ _ _ Hrow) as Hr.
  pose proof (lookup_lt_Some _ _ _ Hx) as Hc.
  rewrite Forall_lookup in Hcols. specialize (Hcols _ _ Hrow). simpl in Hcols. lia.
Qed.

Lemma example_2x2_exact : exact_storage example_2x2.
Proof. apply exact_storage_lengths; [reflexivity|]. by repeat constructor. Qed.

(** The block the default constructor allocates lies outside its 0 by 0
    shape and can be written and read all the same. *)
Remark default_constructed_cell :
  returned ((l ← Matrix_default; set l 0 0 5%Z;; get l 0 0) initial) = Some 5%Z.
Proof. vm_compute. reflexivity. Qed.

(** * The specified behaviour *)

(** C5.  Shape-only construction, [Matrix(H, W)] with the default
    [random = 0] (seed 0 selects zero-initialization), builds for every [H] and
    [W] an [H] by [W] matrix whose element at every [(r, c)] with [r < H] and
    [c < W] is the additive identity, [val_t(0)]. *)
Theorem zero_initialization {val_t} {VT : ValT val_t} {CR : CRand}
    (hh ww : dim_t) (σ : state val_t) :
  ∃ l σ', Matrix_shape hh ww 0 σ = Ok l σ' ∧
    height l σ' = Ok hh σ' ∧ width l σ' = Ok ww σ' ∧
    ∀ r c, r < hh → c < ww → get l r c σ' = Ok (of_int 0) σ'.
Proof.
  destruct (Matrix_shape_zero σ hh ww) as (m & Hctor & Hm).
  eexists _, _. split; [exact Hctor|].
  exact (holds_observe _ _ _ _ _ _ (with_obj_lookup _ _ _) Hm).
Qed.

Lemma zero_initialization_witness :
  ∃ l σ', Matrix_shape 2 3 0 (initial (val_t := Z)) = Ok l σ' ∧
          get l 1 2 σ' = Ok 0%Z σ'.
Proof.
  destruct (zero_initialization 2 3 (initial (val_t := Z)))
    as (l & σ' & Hctor & _ & _ & Hget).
  exists l, σ'. split; [exact Hctor|]. apply Hget; reflexivity.
Defined.



(** The element of [Matrix<unsigned>(1, 1, 42)] under the sample generator:
    [rand()] returns [19081], less than [RAND_MAX], the quotient is [0] and
    [0u * 2 - 1] wraps around. *)
Remark unsigned_random_element :
  returned ((l ← Matrix_shape 1 1 42; get l 0 0) (initial (val_t := c_unsigned)))
  = Some (Unsigned 4294967295).
Proof. vm_compute. reflexivity. Qed.


(** C1.  For every pair of matrices [L] and [R] with [L.W = R.H], here [n],
    [dot(L, R)] returns a new matrix [P] with [P.H = L.H], [P.W = R.W], and
    for every [(r, c)], [P[r, c]] is the sum over [k] from [0] to
    [L.W - 1] of [L[r, k] * R[k, c]], added up from the left starting from
    the additive identity; in particular
    [dot([[1,2,3],[4,5,6]], [[7,8],[9,10],[11,12]]) = [[58,64],[139,154]]]. *)
Theorem dot_product :
  (∀ val_t (VT : ValT val_t) (CR : CRand) (σ : state val_t) lhs rhs L R
     (lh n rw : dim_t) fL fR,
     heap σ !! lhs = Some L → heap σ !! rhs = Some R →
     holds L lh n fL → holds R n rw fR →
     ∃ p σ', dot lhs rhs σ = Ok p σ' ∧ heap σ !! p = None ∧
       height p σ' = Ok lh σ' ∧ width p σ' = Ok rw σ' ∧
       ∀ r c, r < lh → c < rw →
         get p r c σ'
         = Ok (fold_left (λ acc k, vadd acc (vmul (fL r k) (fR k c)))
                         (indices n) (of_int 0)) σ') ∧
  returned ((L ← Matrix_from_vector [[1; 2; 3]; [4; 5; 6]]%Z;
             R ← Matrix_from_vector [[7; 8]; [9; 10]; [11; 12]]%Z;
             P ← dot L R;
             elements P) initial)
  = Some [[58; 64]; [139; 154]]%Z.
Proof.
  split; [|vm_compute; reflexivity].
  intros val_t VT CR σ lhs rhs L R lh n rw fL fR HL HR HfL HfR.
  destruct (dot_ok σ lhs rhs L R lh n rw fL fR HL HR HfL HfR) as (m & Hdot & Hm).
  eexists _, _. split; [exact Hdot|]. split; [apply fresh_loc_None|].
  exact (holds_observe _ _ _ _ _ _ (with_obj_lookup _ _ _) Hm).
Qed.

Lemma dot_product_witness :
  ∃ p σ', dot 1%positive 2%positive (example_state example_row example_column)
          = Ok p σ' ∧
          get p 0 0 σ' = Ok 43%Z σ'.
Proof.
  destruct (proj1 dot_product Z _ _ (example_state example_row example_column)
              1%positive 2%positive example_row example_column 1 2 1
              (row_elements 5 7) (column_elements 3 4))
    as (p & σ' & Hdot & _ & _ & _ & Hget).
  - reflexivity.
  - reflexivity.
  - exact example_row_holds.
  - exact example_column_holds.
  - exists p, σ'. split; [exact Hdot|]. apply (Hget 0 0); reflexivity.
Defined.

(** C6.  For every matrix [S], [transpose(S)] returns a new matrix [T] with
    [T.H = S.W], [T.W = S.H] and [T[c, r] = S[r, c]] for every [(r, c)] with
    [r < S.H] and [c < S.W], and leaves [S], shape and elements, as it was;
    in particular [transpose([[1,2,3],[4,5,6]]) = [[1,4],[2,5],[3,6]]]. *)
Theorem transpose_spec :
  (∀ val_t (VT : ValT val_t) (CR : CRand) (σ : state val_t) src S
     (hh ww : dim_t) f,
     heap σ !! src = Some S → holds S hh ww f →
     ∃ t σ', transpose src σ = Ok t σ' ∧ heap σ !! t = None ∧
       height t σ' = Ok ww σ' ∧ width t σ' = Ok hh σ' ∧
       (∀ r c, r < hh → c < ww → get t c r σ' = Ok (f r c) σ') ∧
       heap σ' !! src = Some S) ∧
  returned ((S ← Matrix_from_vector [[1; 2; 3]; [4; 5; 6]]%Z;
             T ← transpose S;
             t ← elements T; s ← elements S; mret (t, s)) initial)
  = Some ([[1; 4]; [2; 5]; [3; 6]]%Z, [[1; 2; 3]; [4; 5; 6]]%Z).
Proof.
  split; [|vm_compute; reflexivity].
  intros val_t VT CR σ src S hh ww f HS Hf.
  destruct (transpose_ok σ src S hh ww f HS Hf) as (m & Htr & Hm).
  destruct (holds_observe _ _ _ _ _ _ (with_obj_lookup σ (fresh (dom (heap σ))) m) Hm)
    as (Hh & Hw & Hget).
  eexists _, _. split; [exact Htr|]. split; [apply fresh_loc_None|].
  split; [done|]. split; [done|]. split.
  - intros r c Hr Hc. by apply Hget.
  - by rewrite with_obj_fresh_frame.
Qed.

Lemma transpose_spec_witness :
  ∃ t σ', transpose 1%positive (example_state example_row example_column)
          = Ok t σ' ∧
          get t 1 0 σ' = Ok 7%Z σ' ∧
          heap σ' !! 1%positive = Some example_row.
Proof.
  destruct (proj1 transpose_spec Z _ _ (example_state example_row example_column)
              1%positive example_row 1 2 (row_elements 5 7))
    as (t & σ' & Htr & _ & _ & _ & Hget & Hsrc).
  - reflexivity.
  - exact example_row_holds.
  - exists t, σ'. split; [exact Htr|]. split; [|exact Hsrc].
    apply (Hget 0 1); reflexivity.
Defined.

(** C3.  For every pair of matrices [A] and [B] of the same shape, after
    [A -= B] every element is [A[r, c]] as it was minus [B[r, c]], and after
    [A *= B] it is their product; [A] keeps its shape, the matrix returned
    is a copy of the updated [A], and [B], the other object, is unchanged
    in shape and in every element.  In particular
    [[[1,2],[3,4]] -= [[1,1],[1,1]]] leaves [[[0,1],[2,3]]]. *)
Theorem compound_assignment :
  (∀ val_t (VT : ValT val_t) (CR : CRand) (σ : state val_t) a b A B
     (hh ww : dim_t) fA fB,
     heap σ !! a = Some A → heap σ !! b = Some B →
     holds A hh ww fA → holds B hh ww fB →
     (∃ p σ', operator_sub_assign a b σ = Ok p σ' ∧
        height a σ' = Ok hh σ' ∧ width a σ' = Ok ww σ' ∧
        (∀ r c, r < hh → c < ww →
           get a r c σ' = Ok (vsub (fA r c) (fB r c)) σ' ∧
           get p r c σ' = Ok (vsub (fA r c) (fB r c)) σ') ∧
        (a ≠ b → heap σ' !! b = Some B)) ∧
     (∃ p σ', operator_mul_assign a b σ = Ok p σ' ∧
        height a σ' = Ok hh σ' ∧ width a σ' = Ok ww σ' ∧
        (∀ r c, r < hh → c < ww →
           get a r c σ' = Ok (vmul (fA r c) (fB r c)) σ' ∧
           get p r c σ' = Ok (vmul (fA r c) (fB r c)) σ') ∧
        (a ≠ b → heap σ' !! b = Some B))) ∧
  returned ((A ← Matrix_from_vector [[1; 2]; [3; 4]]%Z;
             B ← Matrix_from_vector [[1; 1]; [1; 1]]%Z;
             operator_sub_assign A B;;
             x ← elements A; y ← elements B; mret (x, y)) initial)
  = Some ([[0; 1]; [2; 3]]%Z, [[1; 1]; [1; 1]]%Z).
Proof.
  split; [|vm_compute; reflexivity].
  intros val_t VT CR σ a b A B hh ww fA fB HA HB HfA HfB.
  assert (∀ op what,
    ∃ p σ', compound_assign op what a b σ = Ok p σ' ∧
      height a σ' = Ok hh σ' ∧ width a σ' = Ok ww σ' ∧
      (∀ r c, r < hh → c < ww →
         get a r c σ' = Ok (op (fA r c) (fB r c)) σ' ∧
         get p r c σ' = Ok (op (fA r c) (fB r c)) σ') ∧
      (a ≠ b → heap σ' !! b = Some B)) as Hboth.
  { intros op what.
    destruct (compound_assign_ok op what σ a b A B hh ww fA fB HA HB HfA HfB)
      as (m' & mc & Hrun & Hm' & Hmc).
    set (l := fresh (dom (heap σ))) in *.
    assert (l ≠ a) as Hla by (by eapply fresh_ne).
    assert (l ≠ b) as Hlb by (by eapply fresh_ne).
    assert (heap (with_obj (with_obj σ a m') l mc) !! a = Some m') as Ha'.
    { rewrite with_obj_lookup_ne by done. apply with_obj_lookup. }
    destruct (holds_observe _ _ _ _ _ _ Ha' Hm') as (Hh & Hw & Hget).
    destruct (holds_observe _ _ _ _ _ _
                (with_obj_lookup (with_obj σ a m') l mc) Hmc) as (_ & _ & Hgetc).
    eexists _, _. split; [exact Hrun|]. split; [done|]. split; [done|]. split.
    - intros r c Hr Hc. split; [by apply Hget|by apply Hgetc].
    - intros Hab. rewrite !with_obj_lookup_ne by done. done. }
  split.
  - rewrite operator_sub_assign_unfold. apply Hboth.
  - rewrite operator_mul_assign_unfold. apply Hboth.
Qed.

Lemma compound_assignment_witness :
  (∃ p σ', operator_sub_assign 1%positive 2%positive
             (example_state example_row example_row') = Ok p σ' ∧
           get 1%positive 0 1 σ' = Ok 4%Z σ' ∧
           heap σ' !! 2%positive = Some example_row') ∧
  (∃ p σ', operator_mul_assign 1%positive 2%positive
             (example_state example_row example_row') = Ok p σ' ∧
           get 1%positive 0 1 σ' = Ok 21%Z σ' ∧
           heap σ' !! 2%positive = Some example_row').
Proof.
  destruct (proj1 compound_assignment Z _ _ (example_state example_row example_row')
              1%positive 2%positive example_row example_row' 1 2
              (row_elements 5 7) (row_elements 2 3))
    as ((p & σ' & Hsub & _ & _ & Hget & HB) & (q & τ' & Hmul & _ & _ & Hget' & HB')).
  - reflexivity.
  - reflexivity.
  - exact example_row_holds.
  - exact example_row'_holds.
  - split.
    + exists p, σ'. split; [exact Hsub|]. split; [|by apply HB].
      apply (Hget 0 1); reflexivity.
    + exists q, τ'. split; [exact Hmul|]. split; [|by apply HB'].
      apply (Hget' 0 1); reflexivity.
Defined.

(** C2.  [A -= B] and [A *= B] throw [std::domain_error], the
    specification's ShapeError, whenever [A.H ≠ B.H] or [A.W ≠ B.W], and
    [dot(L, R)] throws it whenever [L.W ≠ R.H]; the state the exception
    leaves is the state before the call, so the target keeps its shape and
    every element. *)
Theorem shape_mismatch_throws {val_t} {VT : ValT val_t} {CR : CRand}
    (σ : state val_t) a b A B :
  heap σ !! a = Some A → heap σ !! b = Some B →
  (_height A ≠ _height B ∨ _width A ≠ _width B →
   operator_sub_assign a b σ
   = Throw (domain_error "Invalid matrix dimesions for element-wise subtract!") σ ∧
   operator_mul_assign a b σ
   = Throw (domain_error "Invalid matrix dimesions for element-wise multiply!") σ) ∧
  (_width A ≠ _height B →
   dot a b σ
   = Throw (domain_error "Invalid matrix dimensions for static dot multiplication!") σ).
Proof.
  intros HA HB. split.
  - intros Hne. split.
    + rewrite operator_sub_assign_unfold. by eapply compound_assign_throw.
    + rewrite operator_mul_assign_unfold. by eapply compound_assign_throw.
  - intros Hne. by eapply dot_throw.
Qed.

Lemma shape_mismatch_throws_witness :
  (∃ x, operator_sub_assign 1%positive 2%positive
          (example_state example_2x3 example_2x2)
        = Throw x (example_state example_2x3 example_2x2)) ∧
  (∃ x, operator_mul_assign 1%positive 2%positive
          (example_state example_2x3 example_2x2)
        = Throw x (example_state example_2x3 example_2x2)) ∧
  (∃ x, dot 1%positive 2%positive (example_state example_2x3 example_2x2)
        = Throw x (example_state example_2x3 example_2x2)).
Proof.
  destruct (shape_mismatch_throws (example_state example_2x3 example_2x2)
              1%positive 2%positive example_2x3 example_2x2) as (Hcompound & Hdot).
  - reflexivity.
  - reflexivity.
  - destruct Hcompound as (Hsub & Hmul); [right; discriminate|].
    split; [eexists; exact Hsub|]. split; [eexists; exact Hmul|].
    eexists. apply Hdot. discriminate.
Defined.

(** C9.  [get] and [set] check no bound: whatever the matrix and the
    indices, neither call is rejected by an exception; with [r ≥ H] or
    [c ≥ W] the access [_data[y][x]] simply leaves the storage laid out for
    the shape, which is undefined behaviour, so [r < H] and [c < W] is a
    precondition of both. *)
Theorem access_is_unchecked {val_t} {VT : ValT val_t} {CR : CRand}
    (σ : state val_t) l m (r c : dim_t) (v : val_t) :
  heap σ !! l = Some m → _height m ≤ r ∨ _width m ≤ c →
  (∀ x τ, get l r c σ ≠ Throw x τ) ∧
  (∀ x τ, set l r c v σ ≠ Throw x τ) ∧
  (exact_storage m →
   get l r c σ = Undef OutOfBounds ∧ set l r c v σ = Undef OutOfBounds).
Proof.
  intros Hl Hout. split; [|split].
  - intros x τ. apply get_never_throws.
  - intros x τ. apply set_never_throws.
  - intros Hm. by apply (access_out_of_range _ _ m).
Qed.

Lemma access_is_unchecked_witness :
  get 1%positive 0 2 (example_state example_2x2 example_2x3) = Undef OutOfBounds ∧
  set 1%positive 2 0 9%Z (example_state example_2x2 example_2x3)
  = Undef OutOfBounds.
Proof.
  pose proof example_2x2_exact as Hm. split.
  - destruct (access_is_unchecked (example_state example_2x2 example_2x3)
                1%positive example_2x2 0 2 0%Z) as (_ & _ & Hub);
      [reflexivity|right; discriminate|]. by destruct (Hub Hm).
  - destruct (access_is_unchecked (example_state example_2x2 example_2x3)
                1%positive example_2x2 2 0 9%Z) as (_ & _ & Hub);
      [reflexivity|left; discriminate|]. by destruct (Hub Hm).
Defined.

(** C10.  The sequence constructor evaluates [src[0].size()] for the
    delegated shape before it checks anything, so a non-empty [src] is a
    precondition: on the empty sequence that access is out of bounds, and
    the call neither builds an empty matrix nor throws. *)
Theorem from_rows_empty {val_t} {VT : ValT val_t} {CR : CRand} (σ : state val_t) :
  Matrix_from_vector [] σ = Undef OutOfBounds ∧
  (∀ l σ', Matrix_from_vector [] σ ≠ Ok l σ') ∧
  (∀ x σ', Matrix_from_vector [] σ ≠ Throw x σ').
Proof. by repeat split. Qed.

(** C7, as the code has it.  For every sequence [S] that is not empty, with
    fewer than [2^32] rows and a first row shorter than [2^32], the sequence
    constructor throws [std::domain_error] (ShapeError) if and only if some
    row [S[i]] is not as long as [S[0]], leaving the state as before the
    call; otherwise it builds a matrix with [H = |S|] and [W = |S[0]|] and
    [M[i, j] = S[i][j]].  [from_rows([[1,2],[3]])] throws. *)
Theorem from_rows_rectangular :
  (∀ val_t (VT : ValT val_t) (CR : CRand) (σ : state val_t)
     (src : list (list val_t)) src0,
     src !! 0%nat = Some src0 →
     N.of_nat (length src) < 4294967296 →
     N.of_nat (length src0) < 4294967296 →
     ((∃ x σ', Matrix_from_vector src σ = Throw x σ') ↔
      (∃ i row, src !! i = Some row ∧ length row ≠ length src0)) ∧
     ((∃ i row, src !! i = Some row ∧ length row ≠ length src0) →
      Matrix_from_vector src σ
      = Throw (domain_error "Non rectangular vector input!") σ) ∧
     ((∀ i row, src !! i = Some row → length row = length src0) →
      ∃ l σ', Matrix_from_vector src σ = Ok l σ' ∧
        height l σ' = Ok (N.of_nat (length src)) σ' ∧
        width l σ' = Ok (N.of_nat (length src0)) σ' ∧
        ∀ i j row v, src !! i = Some row → row !! j = Some v →
          get l (N.of_nat i) (N.of_nat j) σ' = Ok v σ')) ∧
  thrown (Matrix_from_vector [[1; 2]; [3]]%Z initial)
  = Some (domain_error "Non rectangular vector input!").
Proof.
  split; [|vm_compute; reflexivity].
  intros val_t VT CR σ src src0 Hsrc0 Hh Hw.
  destruct (Matrix_from_vector_cases σ src src0 Hsrc0 Hh Hw)
    as [(Hall & m & Hrun & Hm)|((i & row & Hrow & Hbad) & Hrun)].
  - assert (¬ ∃ i row, src !! i = Some row ∧ length row ≠ length src0) as Hnone.
    { intros (i & row & Hrow & Hbad). specialize (Hall i row Hrow). lia. }
    split; [|split].
    + split; [|done]. intros (x & σ' & Hthrow). congruence.
    + done.
    + intros _.
      destruct (holds_observe _ _ _ _ _ _
                  (with_obj_lookup σ (fresh (dom (heap σ))) m) Hm)
        as (Hheight & Hwidth & Hget).
      eexists _, _. split; [exact Hrun|]. split; [done|]. split; [done|].
      intros i j row v Hrow Hv.
      rewrite Hget.
      * unfold vector_elem, vector_at. rewrite !Nat2N.id, Hrow. simpl.
        by rewrite Hv.
      * apply lookup_lt_Some in Hrow. lia.
      * apply lookup_lt_Some in Hv. specialize (Hall i row Hrow). lia.
  - assert (∃ i row, src !! i = Some row ∧ length row ≠ length src0) as Hsome.
    { exists i, row. split; [done|]. lia. }
    split; [|split].
    + split; [done|]. intros _. by eexists _, _.
    + done.
    + intros Hall. destruct Hsome as (i' & row' & Hrow' & Hbad').
      by specialize (Hall i' row' Hrow').
Qed.

Lemma from_rows_rectangular_witness :
  (∃ l σ', Matrix_from_vector [[1; 2]; [3; 4]]%Z initial = Ok l σ' ∧
           get l 1 0 σ' = Ok 3%Z σ') ∧
  Matrix_from_vector [[1; 2]; [3]]%Z initial
  = Throw (domain_error "Non rectangular vector input!") initial.
Proof.
  split.
  - destruct (proj1 from_rows_rectangular Z _ _ initial [[1; 2]; [3; 4]]%Z [1; 2]%Z)
      as (_ & _ & Hok); [reflexivity..|].
    destruct Hok as (l & σ' & Hrun & _ & _ & Hget).
    { intros [|[|i]] row [=]; by subst. }
    exists l, σ'. split; [exact Hrun|].
    by apply (Hget 1%nat 0%nat [3; 4]%Z 3%Z).
  - destruct (proj1 from_rows_rectangular Z _ _ initial [[1; 2]; [3]]%Z [1; 2]%Z)
      as (_ & Hthrow & _); [reflexivity..|].
    apply Hthrow. by exists 1%nat, [3]%Z.
Defined.

(** C7 as the specification states it fails on the empty sequence, which
    has no row of a different length and yet yields no matrix, and on a
    sequence of [2^32] empty rows, whose matrix has height [0]. *)
Lemma from_rows_claim_fails :
  ¬ from_rows_claim (val_t := Z) [] initial ∧
  ¬ from_rows_claim (val_t := Z) (replicate (N.to_nat 4294967296) []) initial.
Proof.
  split.
  - intros (_ & Hok). destruct Hok as (l & σ' & Hrun & _); [by intros i row [=]|].
    discriminate.
  - intros (_ & Hok).
    destruct (Matrix_from_vector_wrapped (val_t := Z) initial (N.to_nat 4294967296))
      as (m & Hrun & Hm).
    { apply Pos2Nat.is_pos. }
    { by rewrite N2Nat.id. }
    destruct Hok as (l & σ' & Hrun' & Hheight & _).
    { intros i row Hrow. apply lookup_replicate in Hrow as [-> _].
      by rewrite lookup_replicate_2 by apply Pos2Nat.is_pos. }
    rewrite Hrun in Hrun'. injection Hrun' as <- <-.
    rewrite (height_ok _ _ _ (with_obj_lookup _ _ _)), Hm in Hheight.
    rewrite length_replicate, N2Nat.id in Hheight. discriminate.
Qed.

(** C8.  [print(M, N)] is to write every element with [N] decimals.  The
    member takes [precision], documents it as the precision of the output,
    and never uses it: the format is [" %+1.3f"], three decimals, the space
    before every element.  Asked for five decimals of [[1]], it prints
    [" +1.000"] where the specification has ["+1.00000"]. *)
Theorem print_ignores_precision :
  (∀ val_t (VT : ValT val_t) (CR : CRand) (PF : PrintfF val_t) this p1 p2,
     print (val_t := val_t) this p1 = print this p2) ∧
  printed ((M ← Matrix_from_vector [[1 # 1]]%Q; print M 5) initial)
  = Some (" +1.000" +:+ newline +:+ newline) ∧
  print_spec [[1 # 1]]%Q 5 = "+1.00000" +:+ newline +:+ newline ∧
  printed ((M ← Matrix_from_vector [[1 # 1]]%Q; print M 5) initial)
  ≠ Some (print_spec [[1 # 1]]%Q 5).
Proof.
  split; [done|]. split; [vm_compute; reflexivity|].
  split; [vm_compute; reflexivity|].
  vm_compute. intros [=].
Qed.

(** * Further properties of the class *)

Section Further.
Context {val_t : Type} {VT : ValT val_t} {CR : CRand}.
Implicit Types (σ : state val_t) (m : Matrix val_t) (l : loc).
Implicit Types (f : dim_t → dim_t → val_t).

(** ** Element access within the shape *)

Lemma set_holds σ l m hh ww f y x v :
  heap σ !! l = Some m → holds m hh ww f → y < hh → x < ww →
  ∃ m', set l y x v σ = Ok tt (with_obj σ l m') ∧
        holds m' hh ww (λ r c, if (r =? y) && (c =? x) then v else f r c).
Proof.
  intros Hl Hm Hy Hx.
  destruct (set_shaped σ l m hh ww _ y x v Hl Hm Hy Hx) as (m' & Hset & _ & Hm').
  exists m'. split; [done|]. eapply shaped_ext; [|exact Hm'].
  intros r c _ _. simpl. by destruct (_ && _).
Qed.

(** X1.  [set] within the shape stores the value where [get] finds it,
    changes no other element, leaves the shape alone, and touches no other
    object, the generator or the output. *)
Theorem set_then_get σ l m (hh ww : dim_t) f (y x : dim_t) (v : val_t) :
  heap σ !! l = Some m → holds m hh ww f → y < hh → x < ww →
  ∃ σ', set l y x v σ = Ok tt σ' ∧
    get l y x σ' = Ok v σ' ∧
    height l σ' = Ok hh σ' ∧ width l σ' = Ok ww σ' ∧
    (∀ r c, r < hh → c < ww → r ≠ y ∨ c ≠ x → get l r c σ' = Ok (f r c) σ') ∧
    (∀ l', l' ≠ l → heap σ' !! l' = heap σ !! l') ∧
    rng σ' = rng σ ∧ out σ' = out σ.
Proof.
  intros Hl Hm Hy Hx.
  destruct (set_holds σ l m hh ww f y x v Hl Hm Hy Hx) as (m' & Hset & Hm').
  destruct (holds_observe _ _ _ _ _ _ (with_obj_lookup σ l m') Hm')
    as (Hh & Hw & Hget).
  exists (with_obj σ l m'). split; [done|]. split; [|split; [done|split; [done|]]].
  - rewrite Hget by done. by rewrite !N.eqb_refl.
  - split; [|split; [|done]].
    + intros r c Hr Hc Hne. rewrite Hget by done.
      destruct (N.eqb_spec r y), (N.eqb_spec c x); simpl; try done.
      destruct Hne; congruence.
    + intros l' Hne. by apply with_obj_lookup_ne.
Qed.

(** ** Copies *)

(** X2.  The copy constructor builds a new object with the shape and the
    elements of its source and leaves the source as it was; the two share
    nothing: an element set in either one afterwards does not show in the
    other. *)
Theorem copy_is_independent σ src S (hh ww : dim_t) f :
  heap σ !! src = Some S → holds S hh ww f →
  ∃ c σ', Matrix_copy src σ = Ok c σ' ∧
    heap σ !! c = None ∧
    height c σ' = Ok hh σ' ∧ width c σ' = Ok ww σ' ∧
    (∀ r k, r < hh → k < ww → get c r k σ' = Ok (f r k) σ') ∧
    heap σ' !! src = Some S ∧
    ∀ y x v, y < hh → x < ww →
      (∃ τ, set c y x v σ' = Ok tt τ ∧ heap τ !! src = Some S) ∧
      (∃ τ, set src y x v σ' = Ok tt τ ∧
         ∀ r k, r < hh → k < ww → get c r k τ = Ok (f r k) τ).
Proof.
  intros Hsrc HS.
  destruct (Matrix_copy_ok σ src S hh ww f Hsrc HS) as (m & Hcopy & Hm).
  set (c := fresh (dom (heap σ))) in *.
  assert (c ≠ src) as Hne by (by eapply fresh_ne).
  assert (heap (with_obj σ c m) !! src = Some S) as Hsrc'.
  { by rewrite with_obj_lookup_ne. }
  destruct (holds_observe _ _ _ _ _ _ (with_obj_lookup σ c m) Hm)
    as (Hh & Hw & Hget).
  exists c, (with_obj σ c m). split; [done|]. split; [apply fresh_loc_None|].
  split; [done|]. split; [done|]. split; [done|]. split; [done|].
  intros y x v Hy Hx. split.
  - destruct (set_holds _ c m hh ww f y x v (with_obj_lookup σ c m) Hm Hy Hx)
      as (m' & Hset & _).
    eexists. split; [exact Hset|]. by rewrite with_obj_lookup_ne.
  - destruct (set_holds _ src S hh ww f y x v Hsrc' HS Hy Hx) as (S' & Hset & _).
    eexists. split; [exact Hset|]. intros r k Hr Hk.
    eapply get_ok.
    + rewrite with_obj_lookup_ne by done. apply with_obj_lookup.
    + by apply (shaped_cell _ _ _ _ _ _ Hm).
Qed.

(** ** Transposing twice *)

(** X3.  The transpose of the transpose of a matrix has the shape and the
    elements of the matrix. *)
Theorem transpose_involution σ src S (hh ww : dim_t) f :
  heap σ !! src = Some S → holds S hh ww f →
  ∃ t σ1 u σ2,
    transpose src σ = Ok t σ1 ∧ transpose t σ1 = Ok u σ2 ∧
    height u σ2 = Ok hh σ2 ∧ width u σ2 = Ok ww σ2 ∧
    ∀ r c, r < hh → c < ww → get u r c σ2 = Ok (f r c) σ2.
Proof.
  intros Hsrc HS.
  destruct (transpose_ok σ src S hh ww f Hsrc HS) as (mt & Ht & Hmt).
  set (t := fresh (dom (heap σ))) in *.
  destruct (transpose_ok (with_obj σ t mt) t mt ww hh _ (with_obj_lookup σ t mt) Hmt)
    as (mu & Hu & Hmu).
  set (u := fresh (dom (heap (with_obj σ t mt)))) in *.
  destruct (holds_observe _ _ _ _ _ _ (with_obj_lookup (with_obj σ t mt) u mu) Hmu)
    as (Hh & Hw & Hget).
  eexists _, _, _, _. split; [exact Ht|]. split; [exact Hu|].
  split; [done|]. split; [done|]. done.
Qed.

(** ** The default constructor *)

(** X4.  [Matrix()] builds a new 0 by 0 object of which no element can be
    read, whatever the indices; it takes one number from [std::rand] for
    [_id], so the global generator moves on by one call; the other objects
    and the output stay as they were. *)
Theorem default_constructor σ :
  ∃ l σ', Matrix_default σ = Ok l σ' ∧
    heap σ !! l = None ∧
    height l σ' = Ok 0 σ' ∧ width l σ' = Ok 0 σ' ∧
    (∀ r c x τ, get l r c σ' ≠ Ok x τ) ∧
    rng σ' = (c_rand (rng σ)).2 ∧ out σ' = out σ ∧
    ∀ l', l' ≠ l → heap σ' !! l' = heap σ !! l'.
Proof.
  unfold Matrix_default, rand, new_object, mbind, M_bind, bind.
  destruct (c_rand (rng σ)) as [r g] eqn:Hr. simpl.
  eexists _, _. split; [reflexivity|]. split; [apply fresh_loc_None|].
  split; [by rewrite (height_ok _ _ _ (lookup_insert_eq _ _ _))|].
  split; [by rewrite (width_ok _ _ _ (lookup_insert_eq _ _ _))|].
  split; [|split; [done|split; [done|]]].
  - intros y x v τ. unfold get.
    rewrite (load_cell _ _ _ _ _ (lookup_insert_eq _ _ _)). unfold cell. simpl.
    destruct (N.to_nat y) as [|[|?]]; simpl; [|done..].
    by destruct (N.to_nat x) as [|[|?]].
  - intros l' Hne. simpl. by rewrite lookup_insert_ne.
Qed.

(** ** The shape constructor and the global generator *)

(** X5.  The shape constructor adds one object and changes no other, nor
    the output.  Without a seed it leaves the global generator alone; with
    a seed [s ≠ 0] it reseeds it and draws [H * W] numbers, so the generator
    it leaves is the one [srand(s)] and [H * W] calls of [rand] give,
    whatever state it was in before. *)
Theorem shape_constructor_effects (hh ww : dim_t) (s : Z) σ :
  ∃ l σ', Matrix_shape hh ww s σ = Ok l σ' ∧
    heap σ !! l = None ∧
    (∀ l', l' ≠ l → heap σ' !! l' = heap σ !! l') ∧
    out σ' = out σ ∧
    rng σ' = if decide (s = 0%Z) then rng σ
             else rand_state_after (N.to_nat (hh * ww))
                    (c_srand (s mod 4294967296)%Z).
Proof.
  destruct (decide (s = 0%Z)) as [->|Hs].
  - destruct (Matrix_shape_zero σ hh ww) as (m & Hctor & _).
    eexists _, _. split; [exact Hctor|]. split; [apply fresh_loc_None|].
    split; [|done]. intros l' Hne. by apply with_obj_lookup_ne.
  - destruct (Matrix_shape_random σ hh ww s Hs) as (m & Hctor & _).
    eexists _, _. split; [exact Hctor|]. split; [apply fresh_loc_None|].
    split; [|done]. intros l' Hne. simpl. by rewrite lookup_insert_ne.
Qed.

(** ** What a computation keeps *)

Lemma preserves_ret {A} (P : state val_t → Prop) (a : A) : preserves P (mret a).
Proof. by intros σ HP. Qed.

Lemma preserves_throw {A} (P : state val_t → Prop) x : preserves P (throw (A := A) x).
Proof. by intros σ HP. Qed.

Lemma preserves_undefined {A} (P : state val_t → Prop) u :
  preserves P (undefined (A := A) u).
Proof. by intros σ HP. Qed.

Lemma preserves_bind {A B} (P : state val_t → Prop) (c : M A) (k : A → M B) :
  preserves P c → (∀ a, preserves P (k a)) → preserves P (c ≫= k).
Proof.
  intros Hc Hk σ HP. specialize (Hc σ HP). unfold mbind, M_bind, bind.
  destruct (c σ) as [a σ'| |]; [by apply Hk|done..].
Qed.

Lemma preserves_unwinding {A} (P : state val_t → Prop) (c : M A) cleanup :
  preserves P c → preserves P cleanup → preserves P (unwinding c cleanup).
Proof.
  intros Hc Hcl σ HP. specialize (Hc σ HP). unfold unwinding.
  destruct (c σ) as [a σ'|x σ'|]; [done| |done].
  specialize (Hcl σ' Hc). by destruct (cleanup σ').
Qed.

Lemma preserves_for_range {A} (P : state val_t → Prop) body n i (a : A) :
  (∀ j b, preserves P (body j b)) → preserves P (for_range n i body a).
Proof.
  intros Hbody. revert i a. induction n as [|n IH]; intros i a.
  - apply preserves_ret.
  - simpl. apply preserves_bind; [apply Hbody|]. intros b. apply IH.
Qed.

Lemma preserves_for_dim {A} (P : state val_t → Prop) body bound (a : A) :
  (∀ j b, preserves P (body j b)) → preserves P (for_dim bound body a).
Proof. apply preserves_for_range. Qed.

Lemma preserves_for_dim_ (P : state val_t → Prop) body bound :
  (∀ j, preserves P (body j)) → preserves P (for_dim_ bound body).
Proof. intros Hbody. apply preserves_for_dim. intros j _. apply Hbody. Qed.

Lemma preserves_for_int_ (P : state val_t → Prop) body bound :
  (∀ j, preserves P (body j)) → preserves P (for_int_ bound body).
Proof.
  intros Hbody. unfold for_int_. destruct (bound <=? INT_MAX).
  - by apply preserves_for_dim_.
  - apply preserves_bind; [by apply preserves_for_dim_|].
    intros _. apply preserves_undefined.
Qed.

(** Reading changes nothing. *)
Lemma preserves_deref (P : state val_t → Prop) l : preserves P (deref l).
Proof. intros σ HP. unfold deref. by destruct (heap σ !! l). Qed.

Lemma preserves_load (P : state val_t → Prop) l y x : preserves P (load l y x).
Proof.
  apply preserves_bind; [apply preserves_deref|]. intros m.
  destruct (cell m y x) as [[v|]|];
    [apply preserves_ret|apply preserves_undefined..].
Qed.

Lemma preserves_height (P : state val_t → Prop) l : preserves P (height l).
Proof.
  apply preserves_bind; [apply preserves_deref|]. intros m. apply preserves_ret.
Qed.

Lemma preserves_width (P : state val_t → Prop) l : preserves P (width l).
Proof.
  apply preserves_bind; [apply preserves_deref|]. intros m. apply preserves_ret.
Qed.

(** ** Storage laid out for the shape *)

Lemma laid_out_allocDims hh ww i :
  laid_out (mkMatrix (val_t := val_t) (allocDims hh ww) hh ww i).
Proof.
  split; simpl.
  - unfold allocDims. by rewrite length_replicate.
  - unfold allocDims. apply Forall_replicate. by rewrite length_replicate.
Qed.

Lemma laid_out_exact m : laid_out m → exact_storage m.
Proof.
  intros [Hrows Hcols] r c [x Hx]. unfold cell in Hx.
  destruct (_data m !! N.to_nat r) as [row|] eqn:Hrow; [|done]. simpl in Hx.
  pose proof (lookup_lt_Some _ _ _ Hrow) as Hr.
  pose proof (lookup_lt_Some _ _ _ Hx) as Hc.
  rewrite Forall_lookup in Hcols. specialize (Hcols _ _ Hrow). simpl in Hcols. lia.
Qed.

Lemma obj_laid_out_insert l' l m σ g o :
  (l' = l → laid_out m) →
  obj_laid_out l' σ →
  obj_laid_out l' (mkState (<[l := m]> (heap σ)) g o).
Proof.
  intros Hm Hold m'. simpl. destruct (decide (l = l')) as [->|Hne].
  - rewrite lookup_insert_eq. intros [= <-]. by apply Hm.
  - rewrite lookup_insert_ne by done. apply Hold.
Qed.

Lemma preserves_store l' l y x (v : val_t) :
  preserves (obj_laid_out l') (store l y x v).
Proof.
  intros σ HP. unfold store, deref, mbind, M_bind, bind.
  destruct (heap σ !! l) as [m|] eqn:Hl; [|done].
  destruct (_data m !! N.to_nat y) as [row|] eqn:Hrow; [|done].
  destruct (decide _); [|done]. unfold assign.
  apply obj_laid_out_insert; [|done]. intros ->.
  destruct (HP m Hl) as [Hrows Hcols]. split; simpl.
  - by rewrite length_insert.
  - apply Forall_insert; [done|]. rewrite length_insert.
    rewrite Forall_lookup in Hcols. by apply (Hcols _ _ Hrow).
Qed.

Lemma preserves_new_object l' m :
  laid_out m → preserves (obj_laid_out l') (new_object m).
Proof.
  intros Hm σ HP. unfold new_object. by apply obj_laid_out_insert.
Qed.

Lemma preserves_destroy l' l :
  preserves (obj_laid_out (val_t := val_t) l') (destroy l).
Proof.
  intros σ HP m. unfold destroy. simpl.
  destruct (decide (l = l')) as [->|Hne].
  - by rewrite lookup_delete_eq.
  - rewrite lookup_delete_ne by done. apply HP.
Qed.

Lemma preserves_srand l' s :
  preserves (obj_laid_out (val_t := val_t) l') (srand s).
Proof. by intros σ HP. Qed.

Lemma preserves_rand l' : preserves (obj_laid_out (val_t := val_t) l') rand.
Proof. intros σ HP. unfold rand. by destruct (c_rand (rng σ)). Qed.

Lemma preserves_printf l' s :
  preserves (obj_laid_out (val_t := val_t) l') (printf s).
Proof. by intros σ HP. Qed.

Lemma all_laid_out_initial : all_laid_out (initial (val_t := val_t)).
Proof. intros l m. simpl. by rewrite lookup_empty. Qed.

Lemma preserves_all {A} (c : M (val_t := val_t) A) :
  (∀ l', preserves (obj_laid_out l') c) → preserves all_laid_out c.
Proof.
  intros Hc σ HP.
  destruct (c σ) as [a σ'|x σ'|] eqn:Hrun; [| |done]; intros l';
    specialize (Hc l' σ (HP l')); by rewrite Hrun in Hc.
Qed.

Ltac keeps_step :=
  first
    [ apply preserves_ret | apply preserves_throw | apply preserves_undefined
    | apply preserves_deref | apply preserves_load
    | apply preserves_height | apply preserves_width
    | apply preserves_store | apply preserves_srand | apply preserves_rand
    | apply preserves_printf | apply preserves_destroy
    | apply preserves_new_object, laid_out_allocDims
    | apply preserves_unwinding
    | apply preserves_for_dim_; intros ?
    | apply preserves_for_dim; intros ? ?
    | apply preserves_for_int_; intros ?
    | match goal with
      | |- preserves _ (if ?b then _ else _) => destruct b
      | |- preserves _ (match ?x with _ => _ end) => destruct x
      end
    | apply preserves_bind; [|intros ?] ].

Ltac keeps := unfold get, set, w, h; repeat keeps_step.

Lemma Matrix_shape_keeps l' hh ww s :
  preserves (obj_laid_out (val_t := val_t) l') (Matrix_shape hh ww s).
Proof. unfold Matrix_shape. keeps. Qed.

Lemma Matrix_from_vector_keeps l' (src : list (list val_t)) :
  preserves (obj_laid_out l') (Matrix_from_vector src).
Proof.
  unfold Matrix_from_vector. destruct (src !! 0%nat); [|keeps].
  apply preserves_bind; [apply Matrix_shape_keeps|intros this]. keeps.
Qed.

Lemma Matrix_copy_keeps l' src :
  preserves (obj_laid_out (val_t := val_t) l') (Matrix_copy src).
Proof.
  unfold Matrix_copy. do 2 (apply preserves_bind; [keeps|intros ?]).
  apply preserves_bind; [apply Matrix_shape_keeps|intros this]. keeps.
Qed.

Lemma transpose_keeps l' src :
  preserves (obj_laid_out (val_t := val_t) l') (transpose src).
Proof.
  unfold transpose. do 2 (apply preserves_bind; [keeps|intros ?]).
  apply preserves_bind; [apply Matrix_shape_keeps|intros this]. keeps.
Qed.

Lemma dot_keeps l' lhs rhs :
  preserves (obj_laid_out (val_t := val_t) l') (dot lhs rhs).
Proof.
  unfold dot. do 2 (apply preserves_bind; [keeps|intros ?]).
  destruct (decide _); [keeps|].
  do 2 (apply preserves_bind; [keeps|intros ?]).
  apply preserves_bind; [apply Matrix_shape_keeps|intros this]. keeps.
Qed.

Lemma compound_assign_keeps l' op what this o :
  preserves (obj_laid_out (val_t := val_t) l') (compound_assign op what this o).
Proof.
  unfold compound_assign, shapes_differ.
  apply preserves_bind; [keeps|intros bad]. destruct bad; [keeps|].
  do 2 (apply preserves_bind; [keeps|intros ?]).
  apply preserves_bind; [keeps|intros _]. apply Matrix_copy_keeps.
Qed.

Lemma print_keeps `{PrintfF val_t} l' this precision :
  preserves (obj_laid_out (val_t := val_t) l') (print this precision).
Proof. unfold print. keeps. Qed.

(** X6.  Every object the members build or change has its storage laid out
    as [allocDims] allocates it for the shape, [H] rows of [W] elements: the
    shape constructor, the sequence and copy constructors, [transpose],
    [dot], [set], [-=], [*=] and [print] keep that true of every object of
    the store, whether they return or throw.  The default constructor is
    the exception.  Where it holds, [get] and [set] with [r ≥ H] or
    [c ≥ W] are out-of-bounds accesses. *)
Theorem storage_stays_laid_out {PF : PrintfF val_t} :
  (∀ hh ww s, preserves all_laid_out (Matrix_shape hh ww s)) ∧
  (∀ src : list (list val_t), preserves all_laid_out (Matrix_from_vector src)) ∧
  (∀ src, preserves all_laid_out (Matrix_copy src)) ∧
  (∀ src, preserves all_laid_out (transpose src)) ∧
  (∀ lhs rhs, preserves all_laid_out (dot lhs rhs)) ∧
  (∀ this y x (v : val_t), preserves all_laid_out (set this y x v)) ∧
  (∀ this o, preserves all_laid_out (operator_sub_assign this o)) ∧
  (∀ this o, preserves all_laid_out (operator_mul_assign this o)) ∧
  (∀ this precision, preserves all_laid_out (print this precision)) ∧
  (∀ σ l σ', Matrix_default σ = Ok l σ' → ¬ all_laid_out σ') ∧
  (∀ σ l m (r c : dim_t) (v : val_t),
     all_laid_out σ → heap σ !! l = Some m → _height m ≤ r ∨ _width m ≤ c →
     get l r c σ = Undef OutOfBounds ∧ set l r c v σ = Undef OutOfBounds).
Proof.
  split; [intros hh ww s; apply preserves_all; intros l'; apply Matrix_shape_keeps|].
  split; [intros src; apply preserves_all; intros l';
          apply Matrix_from_vector_keeps|].
  split; [intros src; apply preserves_all; intros l'; apply Matrix_copy_keeps|].
  split; [intros src; apply preserves_all; intros l'; apply transpose_keeps|].
  split; [intros lhs rhs; apply preserves_all; intros l'; apply dot_keeps|].
  split; [intros this y x v; apply preserves_all; intros l';
          apply preserves_store|].
  split; [intros this o; apply preserves_all; intros l';
          rewrite operator_sub_assign_unfold; apply compound_assign_keeps|].
  split; [intros this o; apply preserves_all; intros l';
          rewrite operator_mul_assign_unfold; apply compound_assign_keeps|].
  split; [intros this precision; apply preserves_all; intros l';
          apply print_keeps|].
  split.
  - intros σ l σ' Hrun Hall.
    unfold Matrix_default, rand, new_object, mbind, M_bind, bind in Hrun.
    destruct (c_rand (rng σ)) as [r g]. injection Hrun as <- <-.
    destruct (Hall _ _ (lookup_insert_eq _ _ _)) as [Hrows _]. discriminate.
  - intros σ l m r c v Hall Hl Hout.
    apply (access_out_of_range σ l m r c v Hl); [|done].
    apply laid_out_exact. by apply (Hall l).
Qed.

(** ** Assignment *)

Lemma Matrix_destructor_ok σ this A :
  heap σ !! this = Some A → (N.to_nat (_height A) ≤ length (_data A))%nat →
  Matrix_destructor this σ
  = Ok tt (with_obj σ this (mkMatrix [] (_height A) (_width A) (_id A))).
Proof.
  intros Hthis Hrows.
  destruct (for_dim__inv
    (λ i τ, ∃ d, τ = with_obj σ this (mkMatrix d (_height A) (_width A) (_id A)) ∧
                 length d = length (_data A))
    (λ i, delete_row this i) (_height A) σ) as (σ' & Hrun & d & -> & _).
  - exists (_data A). split; [|done]. unfold with_obj.
    rewrite insert_id; [by rewrite state_eta|]. by destruct A.
  - intros i τ Hi (d & -> & Hlen).
    destruct (lookup_lt_is_Some_2 d (N.to_nat i)) as [row Hrow]; [lia|].
    eexists. split.
    + unfold delete_row. erewrite bind_ok; [|unfold deref; by rewrite with_obj_lookup].
      simpl. rewrite Hrow. unfold assign. reflexivity.
    + eexists. split; [|by rewrite length_insert].
      unfold with_obj. simpl. by rewrite insert_insert_eq.
  - unfold Matrix_destructor.
    rewrite (bind_ok _ _ σ A σ) by (unfold deref; by rewrite Hthis).
    rewrite (bind_ok _ _ _ _ _ Hrun).
    erewrite bind_ok; [|unfold deref; by rewrite with_obj_lookup].
    unfold assign, with_obj. simpl. by rewrite insert_insert_eq.
Qed.

Lemma assign_with_obj σ l m m' :
  assign l m' (with_obj σ l m) = Ok tt (with_obj σ l m').
Proof. unfold assign, with_obj. simpl. by rewrite insert_insert_eq. Qed.

Lemma deref_with_obj σ l m : deref l (with_obj σ l m) = Ok m (with_obj σ l m).
Proof. unfold deref. by rewrite with_obj_lookup. Qed.

Lemma operator_assign_ok σ this o A B hh ww f :
  this ≠ o → heap σ !! this = Some A → heap σ !! o = Some B →
  holds B hh ww f → (N.to_nat (_height A) ≤ length (_data A))%nat →
  ∃ m', operator_assign this o σ = Ok this (with_obj σ this m') ∧
        holds m' hh ww f ∧ laid_out m'.
Proof.
  intros Hne Hthis Ho HB Hrows. pose proof HB as (HBh & HBw & _).
  assert (∀ m, heap (with_obj σ this m) !! o = Some B) as Ho'.
  { intros m. by rewrite with_obj_lookup_ne. }
  set (m4 := mkMatrix (val_t := val_t) (allocDims hh ww) hh ww (_id A)).
  destruct (for_dim2_inv
    (λ i j τ, ∃ m', τ = mkState (<[this := m']> (heap σ)) (rng σ) (out σ) ∧
       shaped m' hh ww (λ r c, if before i j r c then Some (f r c) else None))
    (λ i j, v ← get o i j; store this i j v) hh ww (with_obj σ this m4))
    as (σ' & Hrun & m' & -> & Hm').
  - exists m4. split; [done|].
    apply (shaped_start _ _ _ (λ _ _, None)), shaped_allocDims.
  - intros i j τ Hi Hj (m' & -> & Hm').
    destruct (set_step (heap σ) (rng σ) (out σ) this m' hh ww _ f i j Hm' Hi Hj)
      as (m'' & Hset & Hm'').
    eexists. split; [|by exists m''].
    erewrite bind_ok; [exact Hset|].
    eapply get_ok; [by rewrite lookup_other|]. by apply (shaped_cell _ _ _ _ _ _ HB).
  - intros i τ Hi (m' & -> & Hm'). exists m'. split; [done|].
    by apply shaped_next_row.
  - assert (operator_assign this o σ = Ok this (with_obj σ this m')) as Hassign.
    { unfold operator_assign, h, w. destruct (decide (this = o)); [done|].
      rewrite (bind_ok _ _ _ _ _ (Matrix_destructor_ok σ this A Hthis Hrows)).
      rewrite (bind_ok _ _ _ _ _ (height_ok _ _ _ (Ho' _))), HBh.
      rewrite (bind_ok _ _ _ _ _ (deref_with_obj _ _ _)).
      rewrite (bind_ok _ _ _ _ _ (assign_with_obj _ _ _ _)). simpl.
      rewrite (bind_ok _ _ _ _ _ (width_ok _ _ _ (Ho' _))), HBw.
      rewrite (bind_ok _ _ _ _ _ (deref_with_obj _ _ _)).
      rewrite (bind_ok _ _ _ _ _ (assign_with_obj _ _ _ _)). simpl.
      rewrite (bind_ok _ _ _ _ _ (height_ok _ _ _ (Ho' _))), HBh.
      rewrite (bind_ok _ _ _ _ _ (width_ok _ _ _ (Ho' _))), HBw.
      rewrite (bind_ok _ _ _ _ _ (deref_with_obj _ _ _)).
      rewrite (bind_ok _ _ _ _ _ (assign_with_obj _ _ _ _)). simpl.
      rewrite (bind_ok _ _ _ _ _ (height_ok _ _ _ (Ho' _))), HBh.
      rewrite (bind_ok _ _ _ _ _ (width_ok _ _ _ (Ho' _))), HBw.
      fold m4. by rewrite (bind_ok _ _ _ _ _ Hrun). }
    exists m'. split; [done|].
    split; [by apply (shaped_done _ _ _ (λ _ _, None))|].
    assert (preserves (obj_laid_out this)
              (for_dim_ hh (λ i, for_dim_ ww (λ j, v ← get o i j; store this i j v))))
      as Hkeeps by keeps.
    specialize (Hkeeps (with_obj σ this m4)). rewrite Hrun in Hkeeps.
    apply Hkeeps; [|apply lookup_insert_eq].
    intros m. rewrite with_obj_lookup. intros [= <-]. apply laid_out_allocDims.
Qed.

(** X7.  [A = B] gives [A] the shape and the elements of [B] and returns
    [A]; it adds no object and changes none but [A], nor the generator or
    the output, and [A]'s new storage is laid out for the new shape.
    Assigning a matrix to itself changes nothing at all.  [A] is any matrix
    whose storage [allocDims] has laid out. *)
Theorem assignment σ this o A B (hh ww : dim_t) f :
  heap σ !! this = Some A → heap σ !! o = Some B →
  laid_out A → holds B hh ww f →
  ∃ σ', operator_assign this o σ = Ok this σ' ∧
    height this σ' = Ok hh σ' ∧ width this σ' = Ok ww σ' ∧
    (∀ r c, r < hh → c < ww → get this r c σ' = Ok (f r c) σ') ∧
    obj_laid_out this σ' ∧
    (∀ l', l' ≠ this → heap σ' !! l' = heap σ !! l') ∧
    dom (heap σ') = dom (heap σ) ∧
    rng σ' = rng σ ∧ out σ' = out σ ∧
    (this = o → σ' = σ).
Proof.
  intros Hthis Ho HA HB. destruct (decide (this = o)) as [<-|Hne].
  - assert (A = B) as <- by congruence.
    destruct (holds_observe _ _ _ _ _ _ Hthis HB) as (Hh & Hw & Hget).
    exists σ. split; [unfold operator_assign; by destruct (decide _)|].
    split; [done|]. split; [done|]. split; [done|].
    split; [intros m; by intros [= <-]%(eq_trans (eq_sym Hthis))|]. done.
  - destruct (operator_assign_ok σ this o A B hh ww f Hne Hthis Ho HB)
      as (m' & Hrun & Hm' & Hlaid); [destruct HA as [-> _]; done|].
    destruct (holds_observe _ _ _ _ _ _ (with_obj_lookup σ this m') Hm')
      as (Hh & Hw & Hget).
    exists (with_obj σ this m'). split; [done|].
    split; [done|]. split; [done|]. split; [done|].
    split; [intros m; rewrite with_obj_lookup; by intros [= <-]|].
    split; [intros l' Hl'; by apply with_obj_lookup_ne|].
    split; [simpl; by rewrite dom_insert_lookup_L|]. done.
Qed.

(** ** Printing *)

Section PrintMore.
Context {PF : PrintfF val_t}.

(** X8.  For a matrix of at most [INT_MAX] rows and columns, [print]
    appends to the output, for each row in order, the elements of the row in
    order, each as a space followed by its [%+1.3f] text, then a newline,
    and one more newline after the last row; it changes nothing else, and
    the text does not depend on [precision]. *)
Theorem print_appends_rows σ this m (hh ww : dim_t) f (precision : N) :
  heap σ !! this = Some m → holds m hh ww f → hh ≤ INT_MAX → ww ≤ INT_MAX →
  print this precision σ
  = Ok tt (mkState (heap σ) (rng σ)
             (out σ +:+
              cat (λ r, cat (λ c, " " +:+ printf_plus_f 3 (f r c)) (indices ww)
                        +:+ newline) (indices hh)
              +:+ newline)).
Proof. apply print_ok. Qed.

Lemma never_throws_bind {A B} (c : M (val_t := val_t) A) (k : A → M B) :
  never_throws c → (∀ a, never_throws (k a)) → never_throws (c ≫= k).
Proof.
  intros Hc Hk σ x τ. unfold mbind, M_bind, bind.
  destruct (c σ) as [a σ'|y σ'|] eqn:Hrun; [apply Hk| |done].
  by destruct (Hc σ y σ').
Qed.

Lemma never_throws_for_range {A} (body : dim_t → A → M (val_t := val_t) A) n i a :
  (∀ j b, never_throws (body j b)) → never_throws (for_range n i body a).
Proof.
  intros Hbody. revert i a. induction n as [|n IH]; intros i a; [done|].
  simpl. apply never_throws_bind; [apply Hbody|]. intros b. apply IH.
Qed.

Lemma never_throws_for_int_ (body : dim_t → M (val_t := val_t) unit) bound :
  (∀ j, never_throws (body j)) → never_throws (for_int_ bound body).
Proof.
  intros Hbody. unfold for_int_, for_dim_, for_dim. destruct (bound <=? INT_MAX).
  - apply never_throws_for_range. intros j _. apply Hbody.
  - apply never_throws_bind; [|done].
    apply never_throws_for_range. intros j _. apply Hbody.
Qed.

Lemma never_throws_print_element this i j :
  never_throws (v ← get this i j; printf (" " +:+ printf_plus_f 3 v)).
Proof.
  apply never_throws_bind; [|done]. intros σ x τ. apply get_never_throws.
Qed.

(** A loop over more than [INT_MAX] iterations does not complete. *)
Lemma for_int__overflow (body : dim_t → M (val_t := val_t) unit) bound σ :
  INT_MAX < bound → (∀ j, never_throws (body j)) →
  ∃ u, for_int_ bound body σ = Undef u.
Proof.
  intros Hb Hbody. unfold for_int_.
  rewrite (proj2 (N.leb_gt _ _) Hb). unfold mbind, M_bind, bind.
  destruct (for_dim_ (INT_MAX + 1) body σ) as [a σ'|x σ'|u] eqn:Hrun.
  - by exists SignedOverflow.
  - exfalso. revert Hrun. unfold for_dim_, for_dim.
    apply never_throws_for_range. intros j _. apply Hbody.
  - by exists u.
Qed.

(** A loop of at least one iteration whose first iteration is undefined. *)
Lemma for_int__first_undef (body : dim_t → M (val_t := val_t) unit) bound σ u :
  0 < bound → body 0 σ = Undef u → for_int_ bound body σ = Undef u.
Proof.
  intros Hb Hbody. unfold for_int_, for_dim_, for_dim.
  destruct (bound <=? INT_MAX).
  - destruct (N.to_nat bound) as [|n] eqn:Hn; [lia|]. simpl.
    by rewrite (bind_undef _ _ _ _ Hbody).
  - apply bind_undef.
    destruct (N.to_nat (INT_MAX + 1)) as [|n] eqn:Hn; [unfold INT_MAX in Hn; lia|].
    simpl. by rewrite (bind_undef _ _ _ _ Hbody).
Qed.

(** X9.  [print] counts rows and columns in an [int] and compares it with the
    [unsigned] shape: for a matrix of more than [INT_MAX] rows, or of more
    than [INT_MAX] columns and at least one row, the counter overflows
    before the loop can end, and the call neither returns nor throws. *)
Theorem print_counter_overflow σ this m (precision : N) :
  heap σ !! this = Some m →
  INT_MAX < _height m ∨ (0 < _height m ∧ INT_MAX < _width m) →
  ∃ u, print this precision σ = Undef u.
Proof.
  intros Hthis Hbig. unfold print.
  rewrite (bind_ok _ _ _ _ _ (height_ok _ _ _ Hthis)).
  rewrite (bind_ok _ _ _ _ _ (width_ok _ _ _ Hthis)).
  set (row := λ i : dim_t,
    for_int_ (_width m) (λ j, v ← get this i j; printf (" " +:+ printf_plus_f 3 v));;
    printf newline).
  assert (∀ i, never_throws (row i)) as Hrow.
  { intros i. apply never_throws_bind; [|done].
    apply never_throws_for_int_. intros j. apply never_throws_print_element. }
  destruct Hbig as [Hh|[Hh Hw]].
  - destruct (for_int__overflow row (_height m) σ Hh Hrow) as (u & Hrun).
    exists u. by apply bind_undef.
  - destruct (for_int__overflow
                (λ j, v ← get this 0 j; printf (" " +:+ printf_plus_f 3 v))
                (_width m) σ Hw) as (u & Hrun).
    { intros j. apply never_throws_print_element. }
    exists u. apply bind_undef. apply for_int__first_undef; [done|].
    by apply bind_undef.
Qed.

End PrintMore.

(** ** Products over a ring *)

Section Ring.
Context {VR : ValRing val_t}.

Lemma lsum_ext n (s t : dim_t → val_t) :
  (∀ k, k < N.of_nat n → s k = t k) → lsum n s = lsum n t.
Proof.
  induction n as [|n IH]; intros Hst; [done|].
  rewrite !lsum_S, IH, Hst; [done|lia|]. intros k Hk. apply Hst. lia.
Qed.

Lemma lsum_O (t : dim_t → val_t) : lsum 0 t = of_int 0.
Proof. reflexivity. Qed.

Lemma lsum_zero n : lsum n (λ _, of_int 0) = of_int 0.
Proof.
  induction n as [|n IH]; [done|]. by rewrite lsum_S, IH, vadd_0_r.
Qed.

Lemma lsum_add n (s t : dim_t → val_t) :
  lsum n (λ k, vadd (s k) (t k)) = vadd (lsum n s) (lsum n t).
Proof.
  induction n as [|n IH]; [by rewrite !lsum_O, vadd_0_r|].
  rewrite !lsum_S, IH.
  rewrite <- !vadd_assoc. f_equal.
  rewrite !vadd_assoc. f_equal. apply vadd_comm.
Qed.

Lemma lsum_mul_l n x (t : dim_t → val_t) :
  lsum n (λ k, vmul x (t k)) = vmul x (lsum n t).
Proof.
  induction n as [|n IH]; [by rewrite !lsum_O, vmul_0_r|].
  by rewrite !lsum_S, IH, vmul_add_distr_l.
Qed.

Lemma lsum_mul_r n x (t : dim_t → val_t) :
  lsum n (λ k, vmul (t k) x) = vmul (lsum n t) x.
Proof.
  induction n as [|n IH]; [by rewrite !lsum_O, vmul_0_l|].
  by rewrite !lsum_S, IH, vmul_add_distr_r.
Qed.

Lemma lsum_swap (n p : nat) (g : dim_t → dim_t → val_t) :
  lsum n (λ k, lsum p (λ j, g k j)) = lsum p (λ j, lsum n (λ k, g k j)).
Proof.
  induction n as [|n IH].
  - rewrite lsum_O. symmetry. apply lsum_zero.
  - rewrite lsum_S, IH, <- lsum_add. apply lsum_ext. intros j _.
    by rewrite lsum_S.
Qed.

(** A sum against a column of the identity picks one term. *)
Lemma lsum_identity_r n (t : dim_t → val_t) c :
  lsum n (λ k, vmul (t k) (identity_elements k c))
  = if c <? N.of_nat n then t c else of_int 0.
Proof.
  induction n as [|n IH].
  - rewrite lsum_O. by destruct (N.ltb_spec c (N.of_nat 0)); [lia|].
  - rewrite lsum_S, IH. unfold identity_elements.
    destruct (N.ltb_spec c (N.of_nat n)), (N.ltb_spec c (N.of_nat (S n))),
      (N.eqb_spec (N.of_nat n) c); try lia.
    + by rewrite vmul_0_r, vadd_0_r.
    + subst. by rewrite vmul_1_r, vadd_0_l.
    + by rewrite vmul_0_r, vadd_0_r.
Qed.

Lemma lsum_identity_l n (t : dim_t → val_t) r :
  lsum n (λ k, vmul (identity_elements r k) (t k))
  = if r <? N.of_nat n then t r else of_int 0.
Proof.
  rewrite <- lsum_identity_r. apply lsum_ext. intros k _.
  unfold identity_elements. rewrite vmul_comm.
  by destruct (N.eqb_spec r k), (N.eqb_spec k r); try congruence.
Qed.

Lemma dot_sum_assoc (fA fB fC : dim_t → dim_t → val_t) (n m : dim_t) r k :
  dot_sum (dot_sum fA fB n) fC m r k = dot_sum fA (dot_sum fB fC m) n r k.
Proof.
  unfold dot_sum.
  rewrite (lsum_ext _ _ (λ j, lsum (N.to_nat n)
             (λ i, vmul (vmul (fA r i) (fB i j)) (fC j k))))
    by (intros j _; by rewrite lsum_mul_r).
  rewrite <- lsum_swap. apply lsum_ext. intros i _.
  rewrite <- lsum_mul_l. apply lsum_ext. intros j _. by rewrite vmul_assoc.
Qed.

(** X10.  Over a ring, multiplying by the identity matrix on either side
    gives a matrix with the shape and the elements of the other factor. *)
Theorem dot_identity σ a il ir A IL IR (hh ww : dim_t) f :
  heap σ !! a = Some A → heap σ !! il = Some IL → heap σ !! ir = Some IR →
  holds A hh ww f →
  holds IL hh hh identity_elements → holds IR ww ww identity_elements →
  (∃ p σ', dot a ir σ = Ok p σ' ∧
     height p σ' = Ok hh σ' ∧ width p σ' = Ok ww σ' ∧
     ∀ r c, r < hh → c < ww → get p r c σ' = Ok (f r c) σ') ∧
  (∃ p σ', dot il a σ = Ok p σ' ∧
     height p σ' = Ok hh σ' ∧ width p σ' = Ok ww σ' ∧
     ∀ r c, r < hh → c < ww → get p r c σ' = Ok (f r c) σ').
Proof.
  intros Ha Hil Hir HA HIL HIR. split.
  - destruct (dot_ok σ a ir A IR hh ww ww f identity_elements Ha Hir HA HIR)
      as (m & Hdot & Hm).
    destruct (holds_observe _ _ _ _ _ _
                (with_obj_lookup σ (fresh (dom (heap σ))) m) Hm) as (Hh & Hw & Hget).
    eexists _, _. split; [exact Hdot|]. split; [done|]. split; [done|].
    intros r c Hr Hc. rewrite Hget by done. f_equal. unfold dot_sum.
    rewrite lsum_identity_r, N2Nat.id. by rewrite (proj2 (N.ltb_lt _ _) Hc).
  - destruct (dot_ok σ il a IL A hh hh ww identity_elements f Hil Ha HIL HA)
      as (m & Hdot & Hm).
    destruct (holds_observe _ _ _ _ _ _
                (with_obj_lookup σ (fresh (dom (heap σ))) m) Hm) as (Hh & Hw & Hget).
    eexists _, _. split; [exact Hdot|]. split; [done|]. split; [done|].
    intros r c Hr Hc. rewrite Hget by done. f_equal. unfold dot_sum.
    rewrite lsum_identity_l, N2Nat.id. by rewrite (proj2 (N.ltb_lt _ _) Hr).
Qed.

(** X11.  Over a ring, [dot(dot(A, B), C)] and [dot(A, dot(B, C))] have the
    same shape and the same element at every position. *)
Theorem dot_associative σ a b c A B C (hh n m ww : dim_t) fA fB fC :
  heap σ !! a = Some A → heap σ !! b = Some B → heap σ !! c = Some C →
  holds A hh n fA → holds B n m fB → holds C m ww fC →
  ∃ ab σ1 abc σ2 bc σ3 abc' σ4,
    dot a b σ = Ok ab σ1 ∧ dot ab c σ1 = Ok abc σ2 ∧
    dot b c σ2 = Ok bc σ3 ∧ dot a bc σ3 = Ok abc' σ4 ∧
    height abc σ4 = Ok hh σ4 ∧ width abc σ4 = Ok ww σ4 ∧
    height abc' σ4 = Ok hh σ4 ∧ width abc' σ4 = Ok ww σ4 ∧
    ∀ r k, r < hh → k < ww →
      ∃ v, get abc r k σ4 = Ok v σ4 ∧ get abc' r k σ4 = Ok v σ4.
Proof.
  intros Ha Hb Hc HA HB HC.
  destruct (dot_ok σ a b A B hh n m fA fB Ha Hb HA HB) as (mab & Hab & Hmab).
  set (σ1 := with_obj σ (fresh (dom (heap σ))) mab) in *.
  assert (∀ l x, heap σ !! l = Some x → heap σ1 !! l = Some x) as F1.
  { intros l x Hl. unfold σ1. rewrite with_obj_fresh_frame by (by eexists). done. }
  destruct (dot_ok σ1 _ c mab C hh m ww _ fC (with_obj_lookup _ _ _) (F1 _ _ Hc)
              Hmab HC) as (mabc & Habc & Hmabc).
  set (σ2 := with_obj σ1 (fresh (dom (heap σ1))) mabc) in *.
  assert (∀ l x, heap σ1 !! l = Some x → heap σ2 !! l = Some x) as F2.
  { intros l x Hl. unfold σ2. rewrite with_obj_fresh_frame by (by eexists). done. }
  destruct (dot_ok σ2 b c B C n m ww fB fC (F2 _ _ (F1 _ _ Hb)) (F2 _ _ (F1 _ _ Hc))
              HB HC) as (mbc & Hbc & Hmbc).
  set (σ3 := with_obj σ2 (fresh (dom (heap σ2))) mbc) in *.
  assert (∀ l x, heap σ2 !! l = Some x → heap σ3 !! l = Some x) as F3.
  { intros l x Hl. unfold σ3. rewrite with_obj_fresh_frame by (by eexists). done. }
  destruct (dot_ok σ3 a _ A mbc hh n ww fA _ (F3 _ _ (F2 _ _ (F1 _ _ Ha)))
              (with_obj_lookup _ _ _) HA Hmbc) as (mabc' & Habc' & Hmabc').
  set (σ4 := with_obj σ3 (fresh (dom (heap σ3))) mabc') in *.
  assert (∀ l x, heap σ3 !! l = Some x → heap σ4 !! l = Some x) as F4.
  { intros l x Hl. unfold σ4. rewrite with_obj_fresh_frame by (by eexists). done. }
  destruct (holds_observe σ4 _ _ _ _ _
              (F4 _ _ (F3 _ _ (with_obj_lookup σ1 (fresh (dom (heap σ1))) mabc)))
              Hmabc) as (Hh & Hw & Hget).
  destruct (holds_observe σ4 _ _ _ _ _
              (with_obj_lookup σ3 (fresh (dom (heap σ3))) mabc') Hmabc')
    as (Hh' & Hw' & Hget').
  eexists _, _, _, _, _, _, _, _.
  split; [exact Hab|]. split; [exact Habc|]. split; [exact Hbc|].
  split; [exact Habc'|]. split; [done|]. split; [done|]. split; [done|].
  split; [done|]. intros r k Hr Hk. eexists. split; [by apply Hget|].
  rewrite Hget' by done. f_equal. symmetry. apply dot_sum_assoc.
Qed.

(** X12.  Over a ring, the transpose of [dot(A, B)] and
    [dot(transpose(B), transpose(A))] have the same shape and the same element
    at every position. *)
Theorem transpose_of_dot σ a b A B (hh n ww : dim_t) fA fB :
  heap σ !! a = Some A → heap σ !! b = Some B →
  holds A hh n fA → holds B n ww fB →
  ∃ ab σ1 t σ2 bt σ3 at' σ4 p σ5,
    dot a b σ = Ok ab σ1 ∧ transpose ab σ1 = Ok t σ2 ∧
    transpose b σ2 = Ok bt σ3 ∧ transpose a σ3 = Ok at' σ4 ∧
    dot bt at' σ4 = Ok p σ5 ∧
    height t σ5 = Ok ww σ5 ∧ width t σ5 = Ok hh σ5 ∧
    height p σ5 = Ok ww σ5 ∧ width p σ5 = Ok hh σ5 ∧
    ∀ r k, r < ww → k < hh →
      ∃ v, get t r k σ5 = Ok v σ5 ∧ get p r k σ5 = Ok v σ5.
Proof.
  intros Ha Hb HA HB.
  destruct (dot_ok σ a b A B hh n ww fA fB Ha Hb HA HB) as (mab & Hab & Hmab).
  set (σ1 := with_obj σ (fresh (dom (heap σ))) mab) in *.
  assert (∀ l x, heap σ !! l = Some x → heap σ1 !! l = Some x) as F1.
  { intros l x Hl. unfold σ1. rewrite with_obj_fresh_frame by (by eexists). done. }
  destruct (transpose_ok σ1 _ mab hh ww _ (with_obj_lookup _ _ _) Hmab)
    as (mt & Ht & Hmt).
  set (σ2 := with_obj σ1 (fresh (dom (heap σ1))) mt) in *.
  assert (∀ l x, heap σ1 !! l = Some x → heap σ2 !! l = Some x) as F2.
  { intros l x Hl. unfold σ2. rewrite with_obj_fresh_frame by (by eexists). done. }
  destruct (transpose_ok σ2 b B n ww fB (F2 _ _ (F1 _ _ Hb)) HB) as (mbt & Hbt & Hmbt).
  set (σ3 := with_obj σ2 (fresh (dom (heap σ2))) mbt) in *.
  assert (∀ l x, heap σ2 !! l = Some x → heap σ3 !! l = Some x) as F3.
  { intros l x Hl. unfold σ3. rewrite with_obj_fresh_frame by (by eexists). done. }
  destruct (transpose_ok σ3 a A hh n fA (F3 _ _ (F2 _ _ (F1 _ _ Ha))) HA)
    as (mat & Hat & Hmat).
  set (σ4 := with_obj σ3 (fresh (dom (heap σ3))) mat) in *.
  assert (∀ l x, heap σ3 !! l = Some x → heap σ4 !! l = Some x) as F4.
  { intros l x Hl. unfold σ4. rewrite with_obj_fresh_frame by (by eexists). done. }
  destruct (dot_ok σ4 _ _ mbt mat ww n hh _ _
              (F4 _ _ (with_obj_lookup σ2 (fresh (dom (heap σ2))) mbt))
              (with_obj_lookup σ3 (fresh (dom (heap σ3))) mat) Hmbt Hmat)
    as (mp & Hp & Hmp).
  set (σ5 := with_obj σ4 (fresh (dom (heap σ4))) mp) in *.
  assert (∀ l x, heap σ4 !! l = Some x → heap σ5 !! l = Some x) as F5.
  { intros l x Hl. unfold σ5. rewrite with_obj_fresh_frame by (by eexists). done. }
  destruct (holds_observe σ5 _ _ _ _ _
              (F5 _ _ (F4 _ _ (F3 _ _
                 (with_obj_lookup σ1 (fresh (dom (heap σ1))) mt)))) Hmt)
    as (Hh & Hw & Hget).
  destruct (holds_observe σ5 _ _ _ _ _
              (with_obj_lookup σ4 (fresh (dom (heap σ4))) mp) Hmp)
    as (Hh' & Hw' & Hget').
  eexists _, _, _, _, _, _, _, _, _, _.
  split; [exact Hab|]. split; [exact Ht|]. split; [exact Hbt|].
  split; [exact Hat|]. split; [exact Hp|].
  split; [done|]. split; [done|]. split; [done|]. split; [done|].
  intros r k Hr Hk. eexists. split; [by apply Hget|].
  rewrite Hget' by done. f_equal. unfold dot_sum. apply lsum_ext.
  intros i _. apply vmul_comm.
Qed.

End Ring.

(** ** What the static members and the compound operators leave alone *)

(** X13.  [transpose] and [dot] add their result to the store and change
    nothing else: every object there was, the operands included, the
    generator and the output are as before. *)
Theorem static_members_are_pure σ a b A B (hh n ww : dim_t) fA fB :
  heap σ !! a = Some A → heap σ !! b = Some B →
  holds A hh n fA → holds B n ww fB →
  (∃ t σ', transpose a σ = Ok t σ' ∧ heap σ !! t = None ∧
     (∀ l, l ≠ t → heap σ' !! l = heap σ !! l) ∧
     rng σ' = rng σ ∧ out σ' = out σ) ∧
  (∃ p σ', dot a b σ = Ok p σ' ∧ heap σ !! p = None ∧
     (∀ l, l ≠ p → heap σ' !! l = heap σ !! l) ∧
     rng σ' = rng σ ∧ out σ' = out σ).
Proof.
  intros Ha Hb HA HB. split.
  - destruct (transpose_ok σ a A hh n fA Ha HA) as (m & Hrun & _).
    eexists _, _. split; [exact Hrun|]. split; [apply fresh_loc_None|].
    split; [|done]. intros l Hl. by apply with_obj_lookup_ne.
  - destruct (dot_ok σ a b A B hh n ww fA fB Ha Hb HA HB) as (m & Hrun & _).
    eexists _, _. split; [exact Hrun|]. split; [apply fresh_loc_None|].
    split; [|done]. intros l Hl. by apply with_obj_lookup_ne.
Qed.

(** X14.  [-=] returns a [Matrix] by value, a new object that is a copy of
    the updated left-hand side, not the left-hand side: in [(A -= B) -= C]
    the second subtraction works on the copy.  Afterwards [A] holds
    [A - B], and only the copy holds [A - B - C]. *)
Theorem compound_result_is_a_copy σ a b c A B C (hh ww : dim_t) fA fB fC :
  a ≠ c →
  heap σ !! a = Some A → heap σ !! b = Some B → heap σ !! c = Some C →
  holds A hh ww fA → holds B hh ww fB → holds C hh ww fC →
  ∃ p σ1 q σ2,
    operator_sub_assign a b σ = Ok p σ1 ∧ heap σ !! p = None ∧
    operator_sub_assign p c σ1 = Ok q σ2 ∧
    ∀ r k, r < hh → k < ww →
      get a r k σ2 = Ok (vsub (fA r k) (fB r k)) σ2 ∧
      get p r k σ2 = Ok (vsub (vsub (fA r k) (fB r k)) (fC r k)) σ2.
Proof.
  intros Hac Ha Hb Hc HA HB HC. rewrite operator_sub_assign_unfold.
  destruct (compound_assign_ok vsub
              "Invalid matrix dimesions for element-wise subtract!"
              σ a b A B hh ww fA fB Ha Hb HA HB) as (m1 & mc & Hrun1 & Hm1 & Hmc).
  set (p := fresh (dom (heap σ))) in *.
  set (σ1 := with_obj (with_obj σ a m1) p mc) in *.
  assert (p ≠ a) as Hpa by (by eapply fresh_ne).
  assert (p ≠ c) as Hpc by (by eapply fresh_ne).
  assert (heap σ1 !! p = Some mc) as Hp1 by apply with_obj_lookup.
  assert (heap σ1 !! c = Some C) as Hc1.
  { unfold σ1. by rewrite !with_obj_lookup_ne. }
  assert (heap σ1 !! a = Some m1) as Ha1.
  { unfold σ1. rewrite with_obj_lookup_ne by done. apply with_obj_lookup. }
  destruct (compound_assign_ok vsub
              "Invalid matrix dimesions for element-wise subtract!"
              σ1 p c mc C hh ww _ fC Hp1 Hc1 Hmc HC) as (m2 & mc2 & Hrun2 & Hm2 & _).
  set (q := fresh (dom (heap σ1))) in *.
  assert (q ≠ a) as Hqa by (by eapply fresh_ne).
  exists p, σ1, q, (with_obj (with_obj σ1 p m2) q mc2).
  split; [exact Hrun1|]. split; [apply fresh_loc_None|]. split; [exact Hrun2|].
  intros r k Hr Hk. split.
  - eapply get_ok.
    + rewrite !with_obj_lookup_ne by done. exact Ha1.
    + by apply (shaped_cell _ _ _ _ _ _ Hm1).
  - eapply get_ok.
    + rewrite with_obj_lookup_ne by (by eapply fresh_ne). apply with_obj_lookup.
    + by apply (shaped_cell _ _ _ _ _ _ Hm2).
Qed.

End Further.

(** ** The properties at work on the example objects *)

Lemma example_2x2_holds : holds example_2x2 2 2 (vector_elem [[1; 2]; [3; 4]]%Z).
Proof.
  repeat split. intros r c Hr Hc.
  assert (r = 0 ∨ r = 1) as [-> | ->] by lia;
    assert (c = 0 ∨ c = 1) as [-> | ->] by lia; reflexivity.
Qed.

Lemma example_2x3_holds :
  holds example_2x3 2 3 (vector_elem [[1; 2; 3]; [4; 5; 6]]%Z).
Proof.
  repeat split. intros r c Hr Hc.
  assert (r = 0 ∨ r = 1) as [-> | ->] by lia;
    assert (c = 0 ∨ c = 1 ∨ c = 2) as [-> | [-> | ->]] by lia; reflexivity.
Qed.

Lemma example_identity_holds : holds example_identity 2 2 identity_elements.
Proof.
  repeat split. intros r c Hr Hc.
  assert (r = 0 ∨ r = 1) as [-> | ->] by lia;
    assert (c = 0 ∨ c = 1) as [-> | ->] by lia; reflexivity.
Qed.

Lemma example_half_holds : holds example_half 1 1 (λ _ _, 1 # 2).
Proof.
  repeat split. intros r c Hr Hc.
  assert (r = 0) as -> by lia. assert (c = 0) as -> by lia. reflexivity.
Qed.

Lemma example_2x3_laid_out : laid_out example_2x3.
Proof. split; [reflexivity|]. by repeat constructor. Qed.

Lemma set_then_get_witness :
  ∃ σ', set 1%positive 0 1 9%Z (example_state example_2x2 example_2x3) = Ok tt σ' ∧
        get 1%positive 0 1 σ' = Ok 9%Z σ' ∧
        get 1%positive 1 1 σ' = Ok 4%Z σ' ∧
        heap σ' !! 2%positive = Some example_2x3.
Proof.
  destruct (set_then_get (example_state example_2x2 example_2x3) 1%positive
              example_2x2 2 2 _ 0 1 9%Z eq_refl example_2x2_holds eq_refl eq_refl)
    as (σ' & Hset & Hget & _ & _ & Hothers & Hframe & _).
  exists σ'. split; [exact Hset|]. split; [exact Hget|]. split.
  - apply (Hothers 1 1); [reflexivity..|]. left. discriminate.
  - rewrite Hframe by discriminate. reflexivity.
Defined.

Lemma copy_is_independent_witness :
  ∃ c σ', Matrix_copy 1%positive (example_state example_2x2 example_2x3) = Ok c σ' ∧
          get c 1 0 σ' = Ok 3%Z σ' ∧
          ∃ τ, set c 1 0 8%Z σ' = Ok tt τ ∧ heap τ !! 1%positive = Some example_2x2.
Proof.
  destruct (copy_is_independent (example_state example_2x2 example_2x3) 1%positive
              example_2x2 2 2 _ eq_refl example_2x2_holds)
    as (c & σ' & Hcopy & _ & _ & _ & Hget & _ & Hset).
  exists c, σ'. split; [exact Hcopy|]. split; [apply (Hget 1 0); reflexivity|].
  destruct (Hset 1 0 8%Z eq_refl eq_refl) as (Hcopyside & _). exact Hcopyside.
Defined.

Lemma transpose_involution_witness :
  ∃ t σ1 u σ2,
    transpose 2%positive (example_state example_2x2 example_2x3) = Ok t σ1 ∧
    transpose t σ1 = Ok u σ2 ∧ get u 1 2 σ2 = Ok 6%Z σ2.
Proof.
  destruct (transpose_involution (example_state example_2x2 example_2x3) 2%positive
              example_2x3 2 3 _ eq_refl example_2x3_holds)
    as (t & σ1 & u & σ2 & Ht & Hu & _ & _ & Hget).
  exists t, σ1, u, σ2. split; [exact Ht|]. split; [exact Hu|].
  apply (Hget 1 2); reflexivity.
Defined.

Lemma storage_stays_laid_out_witness :
  ∃ l σ', Matrix_shape 2 2 0 (initial (val_t := Q)) = Ok l σ' ∧
          get l 2 0 σ' = Undef OutOfBounds.
Proof.
  destruct (storage_stays_laid_out (val_t := Q))
    as (Hshape & _ & _ & _ & _ & _ & _ & _ & _ & _ & Haccess).
  destruct (Matrix_shape_zero (initial (val_t := Q)) 2 2) as (m & Hctor & Hm).
  eexists _, _. split; [exact Hctor|].
  specialize (Hshape 2 2 0%Z initial). rewrite Hctor in Hshape.
  destruct (Haccess _ _ m 2 0 (0 # 1) (Hshape all_laid_out_initial)
              (with_obj_lookup _ _ _)) as [Hget _]; [|exact Hget].
  left. destruct Hm as (-> & _). discriminate.
Defined.

Lemma assignment_witness :
  ∃ σ', operator_assign 1%positive 2%positive (example_state example_2x3 example_2x2)
        = Ok 1%positive σ' ∧
        width 1%positive σ' = Ok 2 σ' ∧
        get 1%positive 1 0 σ' = Ok 3%Z σ' ∧
        heap σ' !! 2%positive = Some example_2x2.
Proof.
  destruct (assignment (example_state example_2x3 example_2x2) 1%positive 2%positive
              example_2x3 example_2x2 2 2 _ eq_refl eq_refl example_2x3_laid_out
              example_2x2_holds)
    as (σ' & Hrun & _ & Hw & Hget & _ & Hframe & _).
  exists σ'. split; [exact Hrun|]. split; [exact Hw|]. split.
  - apply (Hget 1 0); reflexivity.
  - rewrite Hframe by discriminate. reflexivity.
Defined.

Lemma print_appends_rows_witness :
  printed (print 1%positive 5 (example_state_Q example_half))
  = Some (" +0.500" +:+ newline +:+ newline).
Proof.
  rewrite (print_appends_rows (example_state_Q example_half) 1%positive example_half
             1 1 _ 5 eq_refl example_half_holds); [reflexivity|discriminate..].
Defined.

Lemma print_counter_overflow_witness :
  ∃ u, print 1%positive 3 (example_state_Q example_tall) = Undef u.
Proof.
  apply (print_counter_overflow (example_state_Q example_tall) 1%positive example_tall 3).
  - apply lookup_singleton_eq.
  - left. reflexivity.
Defined.

Lemma dot_identity_witness :
  (∃ p σ', dot 1%positive 2%positive (example_state example_2x2 example_identity)
           = Ok p σ' ∧ get p 1 0 σ' = Ok 3%Z σ') ∧
  (∃ p σ', dot 2%positive 1%positive (example_state example_2x2 example_identity)
           = Ok p σ' ∧ get p 1 0 σ' = Ok 3%Z σ').
Proof.
  destruct (dot_identity (example_state example_2x2 example_identity)
              1%positive 2%positive 2%positive example_2x2 example_identity
              example_identity 2 2 _ eq_refl eq_refl eq_refl example_2x2_holds
              example_identity_holds example_identity_holds)
    as ((p & σ' & Hdot & _ & _ & Hget) & (q & τ' & Hdot' & _ & _ & Hget')).
  split.
  - exists p, σ'. split; [exact Hdot|]. apply (Hget 1 0); reflexivity.
  - exists q, τ'. split; [exact Hdot'|]. apply (Hget' 1 0); reflexivity.
Defined.

Lemma dot_associative_witness :
  ∃ ab σ1 abc σ2 bc σ3 abc' σ4,
    dot 1%positive 2%positive (example_state example_2x2 example_identity)
    = Ok ab σ1 ∧
    dot ab 1%positive σ1 = Ok abc σ2 ∧
    dot 2%positive 1%positive σ2 = Ok bc σ3 ∧
    dot 1%positive bc σ3 = Ok abc' σ4 ∧
    ∃ v, get abc 1 0 σ4 = Ok v σ4 ∧ get abc' 1 0 σ4 = Ok v σ4.
Proof.
  destruct (dot_associative (example_state example_2x2 example_identity)
              1%positive 2%positive 1%positive example_2x2 example_identity
              example_2x2 2 2 2 2 _ _ _ eq_refl eq_refl eq_refl example_2x2_holds
              example_identity_holds example_2x2_holds)
    as (ab & σ1 & abc & σ2 & bc & σ3 & abc' & σ4 & H1 & H2 & H3 & H4 & _ & _ & _ & _
        & Hget).
  exists ab, σ1, abc, σ2, bc, σ3, abc', σ4.
  split; [exact H1|]. split; [exact H2|]. split; [exact H3|]. split; [exact H4|].
  apply (Hget 1 0); reflexivity.
Defined.

Lemma transpose_of_dot_witness :
  ∃ ab σ1 t σ2 bt σ3 at' σ4 p σ5,
    dot 1%positive 2%positive (example_state example_2x2 example_2x3) = Ok ab σ1 ∧
    transpose ab σ1 = Ok t σ2 ∧
    transpose 2%positive σ2 = Ok bt σ3 ∧ transpose 1%positive σ3 = Ok at' σ4 ∧
    dot bt at' σ4 = Ok p σ5 ∧
    ∃ v, get t 2 1 σ5 = Ok v σ5 ∧ get p 2 1 σ5 = Ok v σ5.
Proof.
  destruct (transpose_of_dot (example_state example_2x2 example_2x3)
              1%positive 2%positive example_2x2 example_2x3 2 2 3 _ _
              eq_refl eq_refl example_2x2_holds example_2x3_holds)
    as (ab & σ1 & t & σ2 & bt & σ3 & at' & σ4 & p & σ5 & H1 & H2 & H3 & H4 & H5
        & _ & _ & _ & _ & Hget).
  exists ab, σ1, t, σ2, bt, σ3, at', σ4, p, σ5.
  split; [exact H1|]. split; [exact H2|]. split; [exact H3|]. split; [exact H4|].
  split; [exact H5|]. apply (Hget 2 1); reflexivity.
Defined.

Lemma static_members_are_pure_witness :
  (∃ t σ', transpose 1%positive (example_state example_2x2 example_2x3) = Ok t σ' ∧
           heap σ' !! 1%positive = Some example_2x2 ∧ rng σ' = c_srand 1) ∧
  (∃ p σ', dot 1%positive 2%positive (example_state example_2x2 example_2x3)
           = Ok p σ' ∧
           heap σ' !! 2%positive = Some example_2x3 ∧ rng σ' = c_srand 1).
Proof.
  destruct (static_members_are_pure (example_state example_2x2 example_2x3)
              1%positive 2%positive example_2x2 example_2x3 2 2 3 _ _
              eq_refl eq_refl example_2x2_holds example_2x3_holds)
    as ((t & σ' & Ht & Hnew & Hframe & Hrng & _)
        & (p & τ' & Hp & Hnew' & Hframe' & Hrng' & _)).
  split.
  - exists t, σ'. split; [exact Ht|]. split; [|exact Hrng].
    rewrite Hframe; [reflexivity|]. intros <-. discriminate Hnew.
  - exists p, τ'. split; [exact Hp|]. split; [|exact Hrng'].
    rewrite Hframe'; [reflexivity|]. intros <-. discriminate Hnew'.
Defined.

Lemma compound_result_is_a_copy_witness :
  ∃ p σ1 q σ2,
    operator_sub_assign 1%positive 2%positive (example_state example_row example_row')
    = Ok p σ1 ∧
    operator_sub_assign p 2%positive σ1 = Ok q σ2 ∧
    get 1%positive 0 1 σ2 = Ok 4%Z σ2 ∧ get p 0 1 σ2 = Ok 1%Z σ2.
Proof.
  destruct (compound_result_is_a_copy (example_state example_row example_row')
              1%positive 2%positive 2%positive example_row example_row' example_row'
              1 2 _ _ _ ltac:(discriminate) eq_refl eq_refl eq_refl
              example_row_holds example_row'_holds example_row'_holds)
    as (p & σ1 & q & σ2 & H1 & _ & H2 & Hget).
  exists p, σ1, q, σ2. split; [exact H1|]. split; [exact H2|].
  apply (Hget 0 1); reflexivity.
Defined.

(** * The randomized fill in [double] *)

Lemma double_within_from_spec (d : nat) (lo x : Z) :
  double_within_from d lo = true →
  (lo ≤ x)%Z → (x < lo + 2 ^ Z.of_nat d)%Z → double_within x = true.
Proof.
  revert lo. induction d as [|d IH]; intros lo Hall Hlo Hhi.
  - cbn in Hhi. assert (x = lo) as -> by lia. exact Hall.
  - cbn [double_within_from] in Hall. apply andb_prop in Hall as [Hleft Hright].
    rewrite Nat2Z.inj_succ, Z.pow_succ_r in Hhi by lia.
    destruct (Z_lt_le_dec x (lo + 2 ^ Z.of_nat d)) as [Hx|Hx].
    + apply (IH lo); [exact Hleft|lia..].
    + apply (IH (lo + 2 ^ Z.of_nat d)%Z); [exact Hright|lia..].
Qed.

(** Every number [std::rand] may return is tried. *)
Lemma double_within_all : double_within_from 15 0 = true.
Proof. vm_compute. reflexivity. Qed.

(** X15.  With [val_t = double] (IEEE binary64) and the sample generator of
    the C standard ([RAND_MAX = 32767]), every element of [Matrix(H, W, s)]
    for a seed [s ≠ 0] compares [>= -1] and [<= 1]: the rounded quotient,
    product and difference stay within the interval at every number the
    generator can return. *)
Theorem double_random_range (hh ww : dim_t) (s : Z) (σ : state PrimFloat.float) :
  s ≠ 0%Z →
  ∃ l σ', Matrix_shape hh ww s σ = Ok l σ' ∧
    ∀ r c, r < hh → c < ww →
      ∃ v, get l r c σ' = Ok v σ' ∧
           PrimFloat.leb (of_int (-1)) v = true ∧
           PrimFloat.leb v (of_int 1) = true.
Proof.
  intros Hs.
  destruct (Matrix_shape_random σ hh ww s Hs) as (m & Hctor & Hm).
  eexists _, _. split; [exact Hctor|].
  intros r c Hr Hc. eexists. split.
  - eapply get_ok; [apply lookup_insert_eq|].
    by apply (shaped_cell _ _ _ _ _ _ Hm).
  - apply andb_prop.
    apply (double_within_from_spec 15 0 _ double_within_all);
      pose proof (rand_nth_range (c_srand (s mod 4294967296)%Z) (r * ww + c)) as Hx;
      cbn in Hx; cbn; lia.
Qed.

Lemma double_random_range_witness :
  ∃ l σ', Matrix_shape 2 2 42 (initial (val_t := PrimFloat.float)) = Ok l σ' ∧
    ∃ v, get l 1 0 σ' = Ok v σ' ∧
         PrimFloat.leb (of_int (-1)) v = true ∧
         PrimFloat.leb v (of_int 1) = true.
Proof.
  destruct (double_random_range 2 2 42 (initial (val_t := PrimFloat.float)))
    as (l & σ' & Hctor & Hget); [done|].
  exists l, σ'. split; [exact Hctor|]. apply Hget; reflexivity.
Defined.
